(** * Glucose Molecule 2048: the game engine of [periodic-table-2048.tsx]

    A shallow embedding of the board engine ([addRandomTile], [rotateBoard],
    [getNextElement], [moveLeft]) and of the move orchestrator ([move],
    [initializeGame]) of the React component [GlucoseMolecule2048], followed
    by the properties of the engine.

    The React state triple (board, score, gameOver) is threaded explicitly;
    the closure variables [score], [board] and [gameOver] that the callbacks
    capture become arguments.  [Math.random()] becomes an argument too. *)

From Stdlib Require Import ZArith String.
From stdpp Require Import base tactics list strings.

Local Open Scope Z_scope.
Local Open Scope nat_scope.

(** ** JavaScript values held by a cell *)

(** A cell of the board holds [null] or an element symbol; reading an array out
    of range yields [undefined]. *)
Inductive value : Type :=
  | VNull
  | VUndefined
  | VStr (s : string).

#[global] Instance value_eq_dec : EqDecision value.
Proof. solve_decision. Defined.

(** [a === b] on these values. *)
Definition strictEq (a b : value) : bool := bool_decide (a = b).

Abbreviation elH := (VStr "H").
Abbreviation elC := (VStr "C").
Abbreviation elO := (VStr "O").
Abbreviation null := VNull.

(** ** Array primitives, as JavaScript defines them *)

Module Arr.

(** [a[i]]: [undefined] out of range. *)
Definition get (a : list value) (i : nat) : value := default VUndefined (a !! i).

(** [a[z]] for an index computed as an integer. *)
Definition getZ (a : list value) (z : Z) : value :=
  if (z <? 0)%Z then VUndefined else get a (Z.to_nat z).

(** [a.indexOf(x)]: the first index holding a value [=== x], or [-1]. *)
Fixpoint indexOfFrom (a : list value) (x : value) (i : Z) : Z :=
  match a with
  | [] => (-1)%Z
  | y :: a' => if strictEq y x then i else indexOfFrom a' x (i + 1)%Z
  end.

Definition indexOf (a : list value) (x : value) : Z := indexOfFrom a x 0%Z.

(** [a.slice(s, e)] for [0 <= s <= e]. *)
Definition slice (s e : nat) (a : list value) : list value := take (e - s) (drop s a).

(** [a.splice(start, deleteCount, ...items)], the array left behind. *)
Definition splice (start deleteCount : nat) (items a : list value) : list value :=
  take start a ++ items ++ drop (start + deleteCount) a.

(** [a.some((val, idx) => f val idx)]. *)
Fixpoint someFrom (f : value -> nat -> bool) (a : list value) (idx : nat) : bool :=
  match a with
  | [] => false
  | val :: a' => f val idx || someFrom f a' (S idx)
  end.

Definition some (f : value -> nat -> bool) (a : list value) : bool := someFrom f a 0.

(** [a.reduce((acc, val, idx) => f acc val idx, init)]. *)
Fixpoint reduceFrom {A : Type} (f : A -> value -> nat -> A) (a : list value)
    (idx : nat) (acc : A) : A :=
  match a with
  | [] => acc
  | val :: a' => reduceFrom f a' (S idx) (f acc val idx)
  end.

Definition reduce {A : Type} (f : A -> value -> nat -> A) (a : list value) (init : A) : A :=
  reduceFrom f a 0 init.

(** [Array(n).fill(v)]. *)
Definition fill (n : nat) (v : value) : list value := replicate n v.

End Arr.

(** ** The random source *)

(** A sample of [Math.random()], a number in the interval [0, 1): the fraction
    [rnum / (rnum + rgap + 1)].  Every double in [0, 1) is such a fraction. *)
Record rand : Type := { rnum : nat; rgap : nat }.

(** [Math.floor(r * n)], computed on the exact fraction (the rounding of the
    floating-point product is not modelled). *)
Definition floorMul (r : rand) (n : nat) : nat :=
  (rnum r * n) / (rnum r + rgap r + 1).

(** ** Board engine *)

(** [const ELEMENTS = ['H', 'C', 'O']] *)
Definition ELEMENTS : list value := [elH; elC; elO].

(** [addRandomTile].  [collect] is the callback of the [reduce] that gathers
    the indices of the empty cells ([[...acc, idx]] appends).  The spot is
    [emptySpots[Math.floor(Math.random() * emptySpots.length)]]; the index is
    always in range (lemma [floorMul_lt]), so the [None] branch below is never
    taken (lemma [addRandomTile_spec]). *)
Definition collect (acc : list nat) (val : value) (idx : nat) : list nat :=
  if strictEq val VNull then acc ++ [idx] else acc.

Definition emptySpotsOf (currentBoard : list value) : list nat :=
  Arr.reduce collect currentBoard [].

Definition addRandomTile (r : rand) (currentBoard : list value) : list value :=
  let emptySpots := emptySpotsOf currentBoard in
  if 0 <? length emptySpots then
    match emptySpots !! floorMul r (length emptySpots) with
    | Some randomSpot =>
        let newBoard := currentBoard in
        <[randomSpot := Arr.get ELEMENTS 0]> newBoard
    | None => currentBoard
    end
  else currentBoard.

(** [getNextElement] *)
Definition getNextElement (currentElement : value) : value :=
  let currentIndex := Arr.indexOf ELEMENTS currentElement in
  if (currentIndex <? Z.of_nat (length ELEMENTS) - 1)%Z
  then Arr.getZ ELEMENTS (currentIndex + 1)%Z
  else VNull.

(** One pass of the outer loop of [rotateBoard]: the two nested [for] loops
    write the sixteen cells of a fresh [Array(16).fill(null)]; every write is
    in range. *)
Definition rotateOnce (rotatedBoard : list value) : list value :=
  foldl (fun newBoard i =>
           foldl (fun newBoard j =>
                    <[i * 4 + j := Arr.get rotatedBoard ((3 - j) * 4 + i)]> newBoard)
                 newBoard (seq 0 4))
        (Arr.fill 16 VNull) (seq 0 4).

(** [rotateBoard]: [times] passes over a copy of the board. *)
Definition rotateBoard (board : list value) (times : nat) : list value :=
  Nat.iter times rotateOnce board.

(** The merge loop of [moveLeft],
    [for (let i = 0; i < currentRow.length - 1; i++)], from index [i] on.
    The row is updated in place: [currentRow[i]] is overwritten (in range,
    as [i < currentRow.length - 1]) and the cell at [i + 1] is spliced out.
    On an empty row [currentRow.length - 1] is [-1] in the source and [0]
    here; the test fails for every [i] either way.
    [fuel] bounds the number of iterations; [currentRow.length] is enough
    (lemma [mergeLoop_fuel]).  The last component counts the merges
    performed; it is a ghost counter that the source does not keep, and no
    other component depends on it.

    [newScore] is a JavaScript number, and [newScore += ...] adds doubles.
    The score is modelled by the integer it holds and the addition by the
    addition of integers: that is what the source computes as long as the
    sums stay within the safe integers, which [safeScore] below ensures for
    a whole pass of [moveLeft] (lemma [moveLeftWith_exact]); beyond them the
    source rounds.  The statements that give the value of a returned score
    assume [safeScore]. *)
Fixpoint mergeLoop (fuel i : nat) (currentRow : list value) (newScore : Z) (merged : nat)
    : list value * Z * nat :=
  match fuel with
  | 0 => (currentRow, newScore, merged)
  | S fuel' =>
      if i <? length currentRow - 1 then
        if strictEq (Arr.get currentRow i) (Arr.get currentRow (i + 1)) then
          let currentRow := <[i := getNextElement (Arr.get currentRow i)]> currentRow in
          let newScore := (newScore + (Arr.indexOf ELEMENTS (Arr.get currentRow i) + 1))%Z in
          let currentRow := Arr.splice (i + 1) 1 [] currentRow in
          mergeLoop fuel' (i + 1) currentRow newScore (S merged)
        else mergeLoop fuel' (i + 1) currentRow newScore merged
      else (currentRow, newScore, merged)
  end.

(** [while (currentRow.length < 4) currentRow.push(null)] *)
Definition padNulls (currentRow : list value) : list value :=
  currentRow ++ replicate (4 - length currentRow) VNull.

(** The body of the [for (let row = 0; row < 4; row++)] loop of [moveLeft]. *)
Definition rowStep (acc : list value * Z * nat) (row : nat) : list value * Z * nat :=
  let '(newBoard, newScore, merged) := acc in
  let currentRow :=
    filter (fun val => val <> VNull) (Arr.slice (row * 4) (row * 4 + 4) newBoard) in
  let originalLength := length currentRow in
  let '(currentRow, newScore, merged) :=
    mergeLoop (length currentRow) 0 currentRow newScore merged in
  let currentRow := padNulls currentRow in
  if negb (length currentRow =? originalLength)
     || Arr.some (fun val idx =>
                    negb (strictEq val
                            (Arr.get (Arr.slice (row * 4) (row * 4 + 4) newBoard) idx)))
                 currentRow
  then (Arr.splice (row * 4) 4 currentRow newBoard, newScore, merged)
  else (newBoard, newScore, merged).

(** [moveLeft] with the ghost merge counter; [score] is the closure variable. *)
Definition moveLeftCounted (score : Z) (board : list value) : list value * Z * nat :=
  foldl rowStep (board, score, 0) (seq 0 4).

(** [moveLeft]: the pair [{ newBoard, newScore }]. *)
Definition moveLeft (score : Z) (board : list value) : list value * Z :=
  fst (moveLeftCounted score board).

(** The number of merges [moveLeft] performs on a board. *)
Definition mergesOf (board : list value) : nat := snd (moveLeftCounted 0%Z board).

(** ** Scores as JavaScript numbers *)

(** [Number.MAX_SAFE_INTEGER], that is [2^53 - 1]: every integer of at most
    this magnitude is a double, and the sum of two of them is computed
    exactly when it is one of them too. *)
Definition MAX_SAFE_INTEGER : Z := 9007199254740991.

Definition safeInteger (z : Z) : Prop :=
  (- MAX_SAFE_INTEGER <= z <= MAX_SAFE_INTEGER)%Z.

(** A score that one pass of [moveLeft], which adds at most 24 (lemma
    [moveLeft_earns]), cannot take out of the safe integers. *)
Definition safeScore (s : Z) : Prop :=
  (- MAX_SAFE_INTEGER <= s <= MAX_SAFE_INTEGER - 24)%Z.

(** What is used of the addition of JavaScript numbers: it is exact on the
    safe integers. *)
Definition exactOnSafe (add : Z -> Z -> Z) : Prop :=
  forall a b, safeInteger a -> safeInteger b -> safeInteger (a + b) ->
              add a b = (a + b)%Z.

(** [moveLeft] again, with the two additions of
    [newScore += ELEMENTS.indexOf(currentRow[i]) + 1] left as a parameter.
    With the addition of integers these are [mergeLoop], [rowStep] and
    [moveLeft]; lemma [moveLeftWith_exact] shows that from a safe score any
    addition that is exact on the safe integers gives the same result. *)
Fixpoint mergeLoopWith (add : Z -> Z -> Z) (fuel i : nat) (currentRow : list value)
    (newScore : Z) (merged : nat) : list value * Z * nat :=
  match fuel with
  | 0 => (currentRow, newScore, merged)
  | S fuel' =>
      if i <? length currentRow - 1 then
        if strictEq (Arr.get currentRow i) (Arr.get currentRow (i + 1)) then
          let currentRow := <[i := getNextElement (Arr.get currentRow i)]> currentRow in
          let newScore :=
            add newScore (add (Arr.indexOf ELEMENTS (Arr.get currentRow i)) 1%Z) in
          let currentRow := Arr.splice (i + 1) 1 [] currentRow in
          mergeLoopWith add fuel' (i + 1) currentRow newScore (S merged)
        else mergeLoopWith add fuel' (i + 1) currentRow newScore merged
      else (currentRow, newScore, merged)
  end.

Definition rowStepWith (add : Z -> Z -> Z) (acc : list value * Z * nat) (row : nat)
    : list value * Z * nat :=
  let '(newBoard, newScore, merged) := acc in
  let currentRow :=
    filter (fun val => val <> VNull) (Arr.slice (row * 4) (row * 4 + 4) newBoard) in
  let originalLength := length currentRow in
  let '(currentRow, newScore, merged) :=
    mergeLoopWith add (length currentRow) 0 currentRow newScore merged in
  let currentRow := padNulls currentRow in
  if negb (length currentRow =? originalLength)
     || Arr.some (fun val idx =>
                    negb (strictEq val
                            (Arr.get (Arr.slice (row * 4) (row * 4 + 4) newBoard) idx)))
                 currentRow
  then (Arr.splice (row * 4) 4 currentRow newBoard, newScore, merged)
  else (newBoard, newScore, merged).

Definition moveLeftWith (add : Z -> Z -> Z) (score : Z) (board : list value)
    : list value * Z :=
  fst (foldl (rowStepWith add) (board, score, 0) (seq 0 4)).

(** ** Move orchestrator *)

Record state : Type := mkState {
  board : list value;
  score : Z;
  gameOver : bool
}.

#[global] Instance state_eq_dec : EqDecision state.
Proof. solve_decision. Defined.

(** [finalBoard.some((val, idx) => val !== board[idx])] *)
Definition differs (finalBoard board : list value) : bool :=
  Arr.some (fun val idx => negb (strictEq val (Arr.get board idx))) finalBoard.

(** The [switch] of [move]. *)
Definition rotateIn (direction : string) (board : list value) : list value :=
  if bool_decide (direction = "ArrowRight") then rotateBoard board 2
  else if bool_decide (direction = "ArrowUp") then rotateBoard board 1
  else if bool_decide (direction = "ArrowDown") then rotateBoard board 3
  else board.

(** The chain of conditionals that computes [finalBoard]. *)
Definition rotateOut (direction : string) (movedBoard board : list value) : list value :=
  if bool_decide (direction = "ArrowLeft") then movedBoard
  else if bool_decide (direction = "ArrowRight") then rotateBoard movedBoard 2
  else if bool_decide (direction = "ArrowUp") then rotateBoard movedBoard 3
  else if bool_decide (direction = "ArrowDown") then rotateBoard movedBoard 1
  else board.

(** [finalBoard] of [move]: rotate, [moveLeft], rotate back. *)
Definition finalBoardOf (direction : string) (st : state) : list value :=
  rotateOut direction (fst (moveLeft (score st) (rotateIn direction (board st)))) (board st).

(** The rotation count of the game-over probe. *)
Definition probeTimes (dir : string) : nat :=
  if bool_decide (dir = "ArrowRight") then 2
  else if bool_decide (dir = "ArrowUp") then 1
  else if bool_decide (dir = "ArrowDown") then 3
  else 0.

Definition directions : list string := ["ArrowLeft"; "ArrowRight"; "ArrowUp"; "ArrowDown"].

(** [availableMoves] of [move]: the probe compares [testBoard], which is
    [moveLeft] of the rotated board, with [boardWithNewTile]. *)
Definition availableMoves (score : Z) (boardWithNewTile : list value) : bool :=
  existsb (fun dir =>
             let testBoard :=
               fst (moveLeft score (rotateBoard boardWithNewTile (probeTimes dir))) in
             differs testBoard boardWithNewTile)
          directions.

(** [move]; [r] is the sample [addRandomTile] draws when it is called. *)
Definition move (direction : string) (r : rand) (st : state) : state :=
  if gameOver st then st
  else
    let rotatedBoard := rotateIn direction (board st) in
    let '(movedBoard, newScore) := moveLeft (score st) rotatedBoard in
    let finalBoard := rotateOut direction movedBoard (board st) in
    let boardChanged := differs finalBoard (board st) in
    if boardChanged then
      let boardWithNewTile := addRandomTile r finalBoard in
      {| board := boardWithNewTile;
         score := newScore;
         gameOver := if negb (availableMoves (score st) boardWithNewTile)
                     then true else gameOver st |}
    else st.

(** [initializeGame]: two tiles on an empty board. *)
Definition initializeGame (r1 r2 : rand) : state :=
  let initialBoard := Arr.fill 16 VNull in
  let initialBoard := addRandomTile r1 initialBoard in
  let initialBoard := addRandomTile r2 initialBoard in
  {| board := initialBoard; score := 0%Z; gameOver := false |}.

(** The state of the [useState] calls, before [initializeGame] has run. *)
Definition mounted : state :=
  {| board := Arr.fill 16 VNull; score := 0%Z; gameOver := false |}.

(** The states the component can be in: the mounted one, the ones
    [initializeGame] sets up (at mount and at every restart), and the ones
    [move] leads to. *)
Inductive reachable : state -> Prop :=
  | reach_mount : reachable mounted
  | reach_init r1 r2 : reachable (initializeGame r1 r2)
  | reach_move direction r st : reachable st -> reachable (move direction r st).

(** A sequence of key presses, each with the sample drawn for its spawn. *)
Definition play (keys : list (string * rand)) (st : state) : state :=
  foldl (fun st k => move (fst k) (snd k) st) st keys.

(** The number of cells that hold a tile. *)
Definition nonEmpty (board : list value) : nat :=
  length (filter (fun val => val <> VNull) board).

(** The simulation of a direction that [move] itself performs: rotate to the
    left orientation, [moveLeft], rotate back (lemma [simulate_finalBoardOf]). *)
Definition simulate (dir : string) (b : list value) : list value :=
  rotateOut dir (fst (moveLeft 0%Z (rotateIn dir b))) b.

(** ** Derived descriptions of the merge loop and of the row loop *)

(** The merge loop read as a recursion on the cells that lie at index [i]
    and after: what it leaves in their place, the score it adds and the
    merges it counts.  Lemma [mergeLoop_cells] proves that this is what
    [mergeLoop] computes. *)
Fixpoint mergeCells (cells : list value) : list value * Z * nat :=
  match cells with
  | a :: cells' =>
      match cells' with
      | b :: rest =>
          if strictEq a b then
            let a' := getNextElement a in
            let '(r, d, m) := mergeCells rest in
            (a' :: r, (Arr.indexOf ELEMENTS a' + 1 + d)%Z, S m)
          else
            let '(r, d, m) := mergeCells cells' in (a :: r, d, m)
      | [] => (cells, 0%Z, 0)
      end
  | [] => ([], 0%Z, 0)
  end.

(** What the body of the row loop computes from the four cells of a row:
    compaction ([filter]), the merge loop and the padding. *)
Definition compactRow (cells : list value) (newScore : Z) (merged : nat)
    : list value * Z * nat :=
  let currentRow := filter (fun val => val <> VNull) cells in
  let '(currentRow, newScore, merged) :=
    mergeLoop (length currentRow) 0 currentRow newScore merged in
  (padNulls currentRow, newScore, merged).

(** The row a row becomes, the score it earns and the merges it performs. *)
Definition rowResult (cells : list value) : list value := (compactRow cells 0%Z 0).1.1.
Definition rowDelta (cells : list value) : Z := (compactRow cells 0%Z 0).1.2.
Definition rowMerges (cells : list value) : nat := (compactRow cells 0%Z 0).2.

(** Row [row] of a board. *)
Definition rowOf (row : nat) (board : list value) : list value :=
  Arr.slice (row * 4) (row * 4 + 4) board.

(** ** The key handler *)

(** [handleKeyDown]: the arrow keys are passed to [move] after
    [event.preventDefault()]; every other key is ignored.  The second
    component tells whether [preventDefault] was called. *)
Definition handleKeyDown (key : string) (r : rand) (st : state) : state * bool :=
  if bool_decide (key ∈ directions) then (move key r st, true) else (st, false).

(** ** Vocabulary of the properties *)

(** The values a cell of a game holds: empty, or one of the elements. *)
Definition gameCell (v : value) : Prop := v = null \/ v = elH \/ v = elC \/ v = elO.

(** Column [j] of a board, read from the bottom row up and from the top row
    down. *)
Definition colUp (j : nat) (b : list value) : list value :=
  [Arr.get b (12 + j); Arr.get b (8 + j); Arr.get b (4 + j); Arr.get b j].

Definition colDown (j : nat) (b : list value) : list value :=
  [Arr.get b j; Arr.get b (4 + j); Arr.get b (8 + j); Arr.get b (12 + j)].

(** No two cells next to each other are equal. *)
Fixpoint noEqualNeighbours (cells : list value) : Prop :=
  match cells with
  | a :: cells' =>
      match cells' with
      | b :: _ => a <> b /\ noEqualNeighbours cells'
      | [] => True
      end
  | [] => True
  end.

(** A row that is already packed to the left and has nothing to merge: tiles
    without equal neighbours, followed by empty cells. *)
Definition settledRow (cells : list value) : Prop :=
  exists tiles k,
    cells = tiles ++ replicate k null /\ (null ∉ tiles) /\ noEqualNeighbours tiles.

(** 1 for a tile, 0 for an empty cell. *)
Definition tile (v : value) : nat := if decide (v = null) then 0 else 1.

(** Compaction alone: the tiles of a row, in order, then empty cells up to
    four. *)
Definition pack (cells : list value) : list value :=
  padNulls (filter (fun val => val <> null) cells).

(** Four cells, given by their [tile] values, are [n] tiles followed by
    empty cells. *)
Definition packedAt (a b c d n : nat) : Prop :=
  a <= n <= 4 * a /\ 2 * b <= n <= 1 + 3 * b
  /\ 3 * c <= n <= 2 + 2 * c /\ 4 * d <= n <= 3 + d.

(** ** Boards and states used in the examples *)

Definition sample0 : rand := {| rnum := 0; rgap := 0 |}.

(** A row [H, H, H, empty] over three empty rows. *)
Definition tripleH : list value :=
  [elH; elH; elH; null; null; null; null; null; null; null; null; null; null; null; null; null].

(** A lone [H] in the top left corner: moving left changes nothing. *)
Definition cornerH : list value :=
  [elH; null; null; null; null; null; null; null; null; null; null; null; null; null; null; null].

(** Two [O] tiles side by side, followed by an [H], on an otherwise empty
    board. *)
Definition terminalPair : list value :=
  [elO; elO; elH; null; null; null; null; null; null; null; null; null; null; null; null; null].

(** A checkerboard of [C] and [H] whose first row has slid one cell to the
    right: moving left leaves one empty cell, at index 3, and the spawned [H]
    completes the checkerboard. *)
Definition checkerBefore : list value :=
  [null; elC; elH; elC;
   elH;  elC; elH; elC;
   elC;  elH; elC; elH;
   elH;  elC; elH; elC].

Definition checker : list value :=
  [elC; elH; elC; elH;
   elH; elC; elH; elC;
   elC; elH; elC; elH;
   elH; elC; elH; elC].

(** * Properties *)

(** ** Arrays *)

Lemma strictEq_true (a b : value) : strictEq a b = true <-> a = b.
Proof. unfold strictEq. apply bool_decide_eq_true. Qed.

Lemma strictEq_refl (a : value) : strictEq a a = true.
Proof. by apply strictEq_true. Qed.

Lemma get_lookup (a : list value) (i : nat) (v : value) :
  a !! i = Some v -> Arr.get a i = v.
Proof. unfold Arr.get. by intros ->. Qed.

Lemma someFrom_false (f : value -> nat -> bool) (a : list value) (i : nat) :
  Arr.someFrom f a i = false <-> forall k v, a !! k = Some v -> f v (i + k) = false.
Proof.
  revert i. induction a as [|x a IH]; intros i; simpl.
  - split; [intros _ k v Hk; by destruct k | done].
  - rewrite orb_false_iff, IH. split.
    + intros [Hx Ha] [|k] v Hk; simpl in Hk.
      * injection Hk as <-. by rewrite Nat.add_0_r.
      * replace (i + S k) with (S i + k) by lia. by apply Ha.
    + intros Hall. split.
      * specialize (Hall 0 x eq_refl). by rewrite Nat.add_0_r in Hall.
      * intros k v Hk. replace (S i + k) with (i + S k) by lia. by apply Hall.
Qed.

(** The test [finalBoard.some((val, idx) => val !== board[idx])] fails exactly
    when every cell of [finalBoard] equals the cell of [board] at its index. *)
Lemma differs_false (a b : list value) :
  differs a b = false <-> forall k v, a !! k = Some v -> Arr.get b k = v.
Proof.
  unfold differs, Arr.some. rewrite someFrom_false. simpl.
  split; intros Hall k v Hk; specialize (Hall k v Hk).
  - apply negb_false_iff, strictEq_true in Hall. done.
  - apply negb_false_iff, strictEq_true. done.
Qed.

Lemma differs_refl (b : list value) : differs b b = false.
Proof. apply differs_false. intros k v Hk. by apply get_lookup. Qed.

(** On boards of one length the test is cell-by-cell equality. *)
Lemma differs_false_eq (a b : list value) :
  length a = length b -> differs a b = false <-> a = b.
Proof.
  intros Hlen. split; [|intros ->; apply differs_refl].
  rewrite differs_false. intros Hall. apply list_eq. intros k.
  destruct (a !! k) as [v|] eqn:Hk.
  - specialize (Hall k v Hk). unfold Arr.get in Hall.
    apply lookup_lt_Some in Hk. rewrite Hlen in Hk.
    apply lookup_lt_is_Some_2 in Hk. destruct Hk as [w Hw].
    rewrite Hw in Hall |- *. simpl in Hall. by subst.
  - apply lookup_ge_None in Hk. rewrite Hlen in Hk.
    symmetry. by apply lookup_ge_None.
Qed.

Lemma splice_length (start n : nat) (items a : list value) :
  start + n <= length a ->
  length (Arr.splice start n items a) = length a - n + length items.
Proof.
  intros Hle. unfold Arr.splice.
  rewrite !length_app, length_take, length_drop. lia.
Qed.

Lemma indexOfFrom_ge (a : list value) (x : value) (i : Z) :
  (0 <= i -> -1 <= Arr.indexOfFrom a x i)%Z.
Proof.
  revert i. induction a as [|y a IH]; intros i Hi; simpl; [lia|].
  destruct (strictEq y x); [lia|]. apply IH. lia.
Qed.

Lemma indexOf_ge (a : list value) (x : value) : (-1 <= Arr.indexOf a x)%Z.
Proof. by apply indexOfFrom_ge. Qed.

(** ** The random source *)

(** [Math.floor(Math.random() * n)] is an index below [n]. *)
Lemma floorMul_lt (r : rand) (n : nat) : 0 < n -> floorMul r n < n.
Proof.
  intros Hn. unfold floorMul.
  apply Nat.Div0.div_lt_upper_bound. nia.
Qed.

(** Every index below [n] is drawn by some sample. *)
Lemma floorMul_onto (n k : nat) :
  k < n -> floorMul {| rnum := k; rgap := n - k - 1 |} n = k.
Proof.
  intros Hk. unfold floorMul. simpl.
  replace (k + (n - k - 1) + 1) with n by lia.
  apply Nat.div_mul. lia.
Qed.

(** ** The merge loop *)

Section MergeLoop.

Implicit Types (row : list value) (s : Z) (n fuel i : nat).

Lemma mergeLoop_length fuel i row s n :
  length (mergeLoop fuel i row s n).1.1 <= length row.
Proof.
  revert i row s n. induction fuel as [|fuel IH]; intros i row s n; simpl; [done|].
  destruct (i <? length row - 1) eqn:Hi; [|done].
  apply Nat.ltb_lt in Hi.
  destruct (strictEq _ _); [|apply IH].
  etrans; [apply IH|].
  rewrite splice_length; rewrite length_insert; simpl; lia.
Qed.

(** The score never goes down, the counter never goes down, and the score
    moves only if the counter does. *)
Lemma mergeLoop_mono fuel i row s n :
  let res := mergeLoop fuel i row s n in
  (s <= res.1.2)%Z /\ n <= res.2 /\ (res.2 = n -> res.1.2 = s /\ res.1.1 = row).
Proof.
  revert i row s n. induction fuel as [|fuel IH]; intros i row s n; simpl; [done|].
  destruct (i <? length row - 1) eqn:Hi; [|done].
  destruct (strictEq _ _); [|apply IH].
  pose proof (indexOf_ge ELEMENTS
    (Arr.get (<[i:=getNextElement (Arr.get row i)]> row) i)) as Hd.
  match goal with |- context [mergeLoop fuel ?i' ?r' ?s' ?n'] =>
    destruct (IH i' r' s' n') as (Hs & Hn & _);
    generalize dependent (mergeLoop fuel i' r' s' n') end.
  intros res Hs Hn. split; [lia|]. split; [lia|]. intros Heq. exfalso. lia.
Qed.

(** The loop does not read the score or the counter: they are offsets. *)
Lemma mergeLoop_shift fuel i row s n :
  mergeLoop fuel i row s n =
  let res := mergeLoop fuel i row 0%Z 0 in (res.1.1, (s + res.1.2)%Z, n + res.2).
Proof.
  revert i row s n. induction fuel as [|fuel IH]; intros i row s n; simpl.
  - f_equal; [f_equal|]; lia.
  - destruct (i <? length row - 1); [|simpl; f_equal; [f_equal|]; lia].
    destruct (strictEq _ _).
    + rewrite IH. symmetry. rewrite IH. simpl. f_equal; [f_equal|]; lia.
    + apply IH.
Qed.

(** Once the fuel covers the rest of the row the loop leaves through its
    condition: more fuel changes nothing. *)
Lemma mergeLoop_fuel fuel fuel' i row s n :
  length row <= i + fuel -> fuel <= fuel' ->
  mergeLoop fuel' i row s n = mergeLoop fuel i row s n.
Proof.
  revert fuel' i row s n.
  induction fuel as [|fuel IH]; intros fuel' i row s n Hlen Hle.
  - destruct fuel' as [|fuel']; simpl; [done|].
    destruct (i <? length row - 1) eqn:Hi; [|done].
    apply Nat.ltb_lt in Hi. lia.
  - destruct fuel' as [|fuel']; [lia|]. simpl.
    destruct (i <? length row - 1) eqn:Hi; [|done].
    apply Nat.ltb_lt in Hi.
    destruct (strictEq _ _); apply IH; try lia.
    rewrite splice_length; rewrite length_insert; simpl; lia.
Qed.

End MergeLoop.

(** ** The merge loop as a recursion on the cells *)

Lemma mergeCells_pair (a b : value) (rest : list value) :
  mergeCells (a :: b :: rest) =
  if strictEq a b then
    let '(r, d, m) := mergeCells rest in
    (getNextElement a :: r,
     (Arr.indexOf ELEMENTS (getNextElement a) + 1 + d)%Z, S m)
  else
    let '(r, d, m) := mergeCells (b :: rest) in (a :: r, d, m).
Proof. reflexivity. Qed.

Lemma get_app_length (pre suf : list value) (k : nat) :
  Arr.get (pre ++ suf) (length pre + k) = Arr.get suf k.
Proof. unfold Arr.get. by rewrite lookup_app_r, Nat.add_comm, Nat.add_sub by lia. Qed.

Lemma mergeLoop_cells (fuel : nat) (pre suf : list value) (s : Z) (n : nat) :
  length suf <= fuel ->
  mergeLoop fuel (length pre) (pre ++ suf) s n =
  let res := mergeCells suf in (pre ++ res.1.1, (s + res.1.2)%Z, n + res.2).
Proof.
  revert pre suf s n. induction fuel as [|fuel IH]; intros pre suf s n Hlen.
  - destruct suf; [|simpl in Hlen; lia]. simpl. f_equal; [f_equal|]; lia.
  - cbn [mergeLoop]. destruct suf as [|a [|b rest]].
    + rewrite app_nil_r. replace (length pre <? length pre - 1) with false
        by (symmetry; apply Nat.ltb_ge; lia).
      simpl. rewrite app_nil_r. f_equal; [f_equal|]; lia.
    + replace (length pre <? length (pre ++ [a]) - 1) with false
        by (symmetry; apply Nat.ltb_ge; rewrite length_app; simpl; lia).
      simpl. f_equal; [f_equal|]; lia.
    + replace (length pre <? length (pre ++ a :: b :: rest) - 1) with true
        by (symmetry; apply Nat.ltb_lt; rewrite length_app; simpl; lia).
      pose proof (get_app_length pre (a :: b :: rest) 0) as Hga.
      pose proof (get_app_length pre (a :: b :: rest) 1) as Hgb.
      pose proof (get_app_length pre (getNextElement a :: b :: rest) 0) as Hgn.
      rewrite Nat.add_0_r in Hga, Hgn.
      change (Arr.get (a :: b :: rest) 0) with a in Hga.
      change (Arr.get (a :: b :: rest) 1) with b in Hgb.
      change (Arr.get (getNextElement a :: b :: rest) 0) with (getNextElement a) in Hgn.
      rewrite !Hga, !Hgb.
      rewrite mergeCells_pair. destruct (strictEq a b).
      * assert (Hins : <[length pre := getNextElement a]> (pre ++ a :: b :: rest)
                       = pre ++ getNextElement a :: b :: rest).
        { rewrite insert_app_r_alt by lia. by rewrite Nat.sub_diag. }
        rewrite !Hins, Hgn.
        assert (Hspl : Arr.splice (length pre + 1) 1 []
                         (pre ++ getNextElement a :: b :: rest)
                       = (pre ++ [getNextElement a]) ++ rest).
        { unfold Arr.splice.
          replace (length pre + 1 + 1) with (length pre + 2) by lia.
          by rewrite take_app_add, drop_app_add. }
        rewrite Hspl.
        pose proof (IH (pre ++ [getNextElement a]) rest
                      (s + (Arr.indexOf ELEMENTS (getNextElement a) + 1))%Z (S n)
                      ltac:(simpl in Hlen; lia)) as E.
        rewrite length_app in E.
        change (length [getNextElement a]) with 1 in E. rewrite E.
        destruct (mergeCells rest) as [[r d] m]. simpl.
        rewrite <- app_assoc. simpl. f_equal; [f_equal|]; lia.
      * pose proof (IH (pre ++ [a]) (b :: rest) s n ltac:(simpl in *; lia)) as E.
        rewrite length_app, <- app_assoc in E.
        change (length [a]) with 1 in E. change ([a] ++ b :: rest) with (a :: b :: rest) in E.
        rewrite E.
        destruct (mergeCells (b :: rest)) as [[r d] m]. simpl.
        rewrite <- app_assoc. done.
Qed.

(** A pair of [O] tiles at the head of the cells is replaced by one empty
    cell; the score is not touched and a merge is counted. *)
Lemma mergeCells_terminal_pair (rest : list value) :
  mergeCells (elO :: elO :: rest) =
  let '(r, d, m) := mergeCells rest in (null :: r, d, S m).
Proof. rewrite mergeCells_pair. by destruct (mergeCells rest) as [[r d] m]. Qed.

(** Each merge shortens the row by one cell. *)
Lemma mergeCells_length (cells : list value) :
  length (mergeCells cells).1.1 + (mergeCells cells).2 = length cells.
Proof.
  assert (Hle : length cells <= length cells) by lia.
  revert Hle. generalize (length cells) at 2. intros k.
  revert cells. induction k as [|k IH]; intros cells Hle.
  - destruct cells; [done | simpl in Hle; lia].
  - destruct cells as [|a [|b rest]]; [reflexivity..|]. rewrite mergeCells_pair.
    destruct (strictEq a b).
    + pose proof (IH rest ltac:(simpl in Hle; lia)) as Hrest.
      clear IH. destruct (mergeCells rest) as [[r d] m]. simpl in *. lia.
    + pose proof (IH (b :: rest) ltac:(simpl in *; lia)) as Hrest.
      clear IH. destruct (mergeCells (b :: rest)) as [[r d] m]. simpl in *. lia.
Qed.

(** ** The row loop, on any board *)

Lemma rowStep_mono (acc : list value * Z * nat) (row : nat) :
  let res := rowStep acc row in
  (acc.1.2 <= res.1.2)%Z /\ acc.2 <= res.2 /\ (res.2 = acc.2 -> res.1.2 = acc.1.2).
Proof.
  destruct acc as [[b s] n]. unfold rowStep.
  match goal with |- context [mergeLoop ?f ?i ?r s n] =>
    pose proof (mergeLoop_mono f i r s n) as Hm;
    destruct (mergeLoop f i r s n) as [[cr s'] n'] end.
  simpl in Hm. destruct Hm as (Hs & Hn & Heq).
  destruct (negb _ || _); simpl; (split; [done|]); (split; [done|]);
    intros E; by apply Heq.
Qed.

Lemma rowStep_shift (b : list value) (s : Z) (n row : nat) :
  rowStep (b, s, n) row =
  let res := rowStep (b, 0%Z, 0) row in (res.1.1, (s + res.1.2)%Z, n + res.2).
Proof.
  unfold rowStep. rewrite (mergeLoop_shift _ _ _ s n).
  destruct (mergeLoop _ 0 _ 0%Z 0) as [[cr ds] dn]. simpl.
  by destruct (negb _ || _).
Qed.

Lemma foldl_rowStep_mono (rows : list nat) (acc : list value * Z * nat) :
  let res := foldl rowStep acc rows in
  (acc.1.2 <= res.1.2)%Z /\ acc.2 <= res.2 /\ (res.2 = acc.2 -> res.1.2 = acc.1.2).
Proof.
  revert acc. induction rows as [|row rows IH]; intros acc; cbn [foldl]; [done|].
  destruct (IH (rowStep acc row)) as (Hs & Hn & Heq).
  destruct (rowStep_mono acc row) as (Hs1 & Hn1 & Heq1).
  split; [lia|]. split; [lia|]. intros E.
  rewrite Heq by lia. apply Heq1. lia.
Qed.

Lemma foldl_rowStep_shift (rows : list nat) (b : list value) (s : Z) (n : nat) :
  foldl rowStep (b, s, n) rows =
  let res := foldl rowStep (b, 0%Z, 0) rows in (res.1.1, (s + res.1.2)%Z, n + res.2).
Proof.
  revert b s n. induction rows as [|row rows IH]; intros b s n; cbn [foldl].
  - simpl. f_equal; [f_equal|]; lia.
  - rewrite rowStep_shift. destruct (rowStep (b, 0%Z, 0) row) as [[b1 d1] m1].
    simpl. rewrite IH. symmetry. rewrite IH. simpl.
    f_equal; [f_equal|]; lia.
Qed.

(** The board [moveLeft] returns does not depend on the score it starts from. *)
Lemma moveLeft_board_score (b : list value) (s s' : Z) :
  (moveLeft s b).1 = (moveLeft s' b).1.
Proof.
  unfold moveLeft, moveLeftCounted.
  rewrite (foldl_rowStep_shift _ b s), (foldl_rowStep_shift _ b s'). done.
Qed.

(** The score [moveLeft] returns is at least the score it starts from, and
    more only when the pass merges. *)
Lemma moveLeft_score (b : list value) (s : Z) :
  (s <= (moveLeft s b).2)%Z /\ ((s < (moveLeft s b).2)%Z -> 0 < mergesOf b).
Proof.
  unfold moveLeft, mergesOf, moveLeftCounted.
  rewrite (foldl_rowStep_shift _ b s).
  destruct (foldl_rowStep_mono (seq 0 4) (b, 0%Z, 0)) as (Hs & Hn & Heq).
  destruct (foldl rowStep (b, 0%Z, 0) (seq 0 4)) as [[b' d] m].
  simpl in *. split; [lia|]. intros Hlt.
  destruct m as [|m]; [|lia]. specialize (Heq eq_refl). lia.
Qed.

(** ** Rows *)

Lemma compactRow_shift (cells : list value) (s : Z) (n : nat) :
  compactRow cells s n = (rowResult cells, (s + rowDelta cells)%Z, n + rowMerges cells).
Proof.
  unfold rowResult, rowDelta, rowMerges, compactRow.
  rewrite (mergeLoop_shift _ _ _ s n).
  destruct (mergeLoop _ 0 _ 0%Z 0) as [[cr ds] dn]. done.
Qed.

Lemma padNulls_length (currentRow : list value) :
  length currentRow <= 4 -> length (padNulls currentRow) = 4.
Proof.
  intros Hle. unfold padNulls. rewrite length_app, length_replicate. lia.
Qed.

Lemma rowResult_length (cells : list value) :
  length cells <= 4 -> length (rowResult cells) = 4.
Proof.
  intros Hle. unfold rowResult, compactRow.
  pose proof (mergeLoop_length (length (filter (fun val => val <> VNull) cells)) 0
                (filter (fun val => val <> VNull) cells) 0%Z 0) as Hm.
  pose proof (length_filter (fun val => val <> VNull) cells) as Hf.
  destruct (mergeLoop _ 0 _ 0%Z 0) as [[cr ds] dn]. simpl in *.
  apply padNulls_length. lia.
Qed.

Lemma rowDelta_nonneg (cells : list value) : (0 <= rowDelta cells)%Z.
Proof.
  unfold rowDelta, compactRow.
  pose proof (mergeLoop_mono (length (filter (fun val => val <> VNull) cells)) 0
                (filter (fun val => val <> VNull) cells) 0%Z 0) as Hm.
  destruct (mergeLoop _ 0 _ 0%Z 0) as [[cr ds] dn]. simpl in *. lia.
Qed.

(** A row earns score only by merging. *)
Lemma rowDelta_merges (cells : list value) : rowMerges cells = 0 -> rowDelta cells = 0%Z.
Proof.
  unfold rowDelta, rowMerges, compactRow.
  pose proof (mergeLoop_mono (length (filter (fun val => val <> VNull) cells)) 0
                (filter (fun val => val <> VNull) cells) 0%Z 0) as Hm.
  destruct (mergeLoop _ 0 _ 0%Z 0) as [[cr ds] dn]. simpl in *.
  intros ->. by apply Hm.
Qed.

Lemma slice_middle (pre cells post : list value) (row : nat) :
  length pre = row * 4 -> length cells = 4 ->
  Arr.slice (row * 4) (row * 4 + 4) (pre ++ cells ++ post) = cells.
Proof.
  intros Hpre Hcells. unfold Arr.slice.
  rewrite drop_app_length' by done.
  replace (row * 4 + 4 - row * 4) with 4 by lia.
  by rewrite take_app_length'.
Qed.

Lemma splice_middle (pre cells post items : list value) (row : nat) :
  length pre = row * 4 -> length cells = 4 ->
  Arr.splice (row * 4) 4 items (pre ++ cells ++ post) = pre ++ items ++ post.
Proof.
  intros Hpre Hcells. unfold Arr.splice.
  rewrite take_app_length' by done.
  rewrite <- Hpre, <- Hcells, drop_app_add', drop_app_length' by done.
  done.
Qed.

(** One pass of the row loop rewrites the row in place and leaves the rest of
    the board alone; when the source skips the [splice], the row it would
    have written is the row that is there. *)
Lemma rowStep_row (pre cells post : list value) (s : Z) (n row : nat) :
  length pre = row * 4 -> length cells = 4 ->
  rowStep (pre ++ cells ++ post, s, n) row =
  (pre ++ rowResult cells ++ post, (s + rowDelta cells)%Z, n + rowMerges cells).
Proof.
  intros Hpre Hcells. unfold rowStep.
  rewrite slice_middle by done.
  pose proof (compactRow_shift cells s n) as Hc.
  pose proof (rowResult_length cells ltac:(lia)) as Hlen.
  unfold compactRow in Hc.
  destruct (mergeLoop _ 0 _ s n) as [[cr s'] n'].
  injection Hc as Hcr Hs Hn. rewrite Hcr, Hs, Hn.
  fold (differs (rowResult cells) cells).
  destruct (negb _ || differs _ _) eqn:Hcond.
  - by rewrite splice_middle.
  - apply orb_false_iff in Hcond as [_ Hsame].
    apply differs_false_eq in Hsame; [|lia].
    by rewrite Hsame.
Qed.

(** [moveLeft] on a board of four rows: the rows are compacted
    independently, and the score and the merge count add up over the rows. *)
Lemma moveLeftCounted_rows (r0 r1 r2 r3 : list value) (s : Z) :
  length r0 = 4 -> length r1 = 4 -> length r2 = 4 -> length r3 = 4 ->
  moveLeftCounted s (r0 ++ r1 ++ r2 ++ r3) =
  (rowResult r0 ++ rowResult r1 ++ rowResult r2 ++ rowResult r3,
   (s + rowDelta r0 + rowDelta r1 + rowDelta r2 + rowDelta r3)%Z,
   rowMerges r0 + rowMerges r1 + rowMerges r2 + rowMerges r3).
Proof.
  intros H0 H1 H2 H3.
  pose proof (rowResult_length r0 ltac:(lia)) as L0.
  pose proof (rowResult_length r1 ltac:(lia)) as L1.
  pose proof (rowResult_length r2 ltac:(lia)) as L2.
  set (rr0 := rowResult r0) in *. set (rr1 := rowResult r1) in *.
  set (rr2 := rowResult r2) in *. set (rr3 := rowResult r3) in *.
  assert (E0 : rowStep (r0 ++ r1 ++ r2 ++ r3, s, 0) 0 =
               (rr0 ++ r1 ++ r2 ++ r3, (s + rowDelta r0)%Z, rowMerges r0)).
  { by apply (rowStep_row [] r0 (r1 ++ r2 ++ r3) s 0 0). }
  assert (E1 : forall s' n', rowStep (rr0 ++ r1 ++ r2 ++ r3, s', n') 1 =
               (rr0 ++ rr1 ++ r2 ++ r3, (s' + rowDelta r1)%Z, n' + rowMerges r1)).
  { intros s' n'. by apply (rowStep_row rr0 r1 (r2 ++ r3)). }
  assert (E2 : forall s' n', rowStep (rr0 ++ rr1 ++ r2 ++ r3, s', n') 2 =
               (rr0 ++ rr1 ++ rr2 ++ r3, (s' + rowDelta r2)%Z, n' + rowMerges r2)).
  { intros s' n'. pose proof (rowStep_row (rr0 ++ rr1) r2 r3 s' n' 2) as E.
    rewrite <- !app_assoc in E. apply E; [rewrite length_app; lia | done]. }
  assert (E3 : forall s' n', rowStep (rr0 ++ rr1 ++ rr2 ++ r3, s', n') 3 =
               (rr0 ++ rr1 ++ rr2 ++ rr3, (s' + rowDelta r3)%Z, n' + rowMerges r3)).
  { intros s' n'. pose proof (rowStep_row (rr0 ++ rr1 ++ rr2) r3 [] s' n' 3) as E.
    rewrite !app_nil_r in E. rewrite <- !app_assoc in E.
    apply E; [rewrite !length_app; lia | done]. }
  unfold moveLeftCounted.
  change (seq 0 4) with [0; 1; 2; 3]. cbn [foldl].
  by rewrite E0, E1, E2, E3.
Qed.

(** ** Boards of sixteen cells *)

Lemma length16_inv (b : list value) :
  length b = 16 ->
  exists x0 x1 x2 x3 x4 x5 x6 x7 x8 x9 x10 x11 x12 x13 x14 x15,
    b = [x0; x1; x2; x3; x4; x5; x6; x7; x8; x9; x10; x11; x12; x13; x14; x15].
Proof.
  intros Hlen.
  do 16 (destruct b as [|? b]; [discriminate Hlen|]).
  destruct b; [|discriminate Hlen].
  eauto 20.
Qed.

(** A board is its four rows, one after the other. *)
Lemma board_rows (b : list value) :
  length b = 16 ->
  b = rowOf 0 b ++ rowOf 1 b ++ rowOf 2 b ++ rowOf 3 b
  /\ length (rowOf 0 b) = 4 /\ length (rowOf 1 b) = 4
  /\ length (rowOf 2 b) = 4 /\ length (rowOf 3 b) = 4.
Proof.
  intros Hlen. apply length16_inv in Hlen.
  destruct Hlen as (x0 & x1 & x2 & x3 & x4 & x5 & x6 & x7 & x8 & x9 & x10
                    & x11 & x12 & x13 & x14 & x15 & ->).
  repeat split.
Qed.

Lemma moveLeftCounted_board (b : list value) (s : Z) :
  length b = 16 ->
  moveLeftCounted s b =
  (rowResult (rowOf 0 b) ++ rowResult (rowOf 1 b)
     ++ rowResult (rowOf 2 b) ++ rowResult (rowOf 3 b),
   (s + rowDelta (rowOf 0 b) + rowDelta (rowOf 1 b)
      + rowDelta (rowOf 2 b) + rowDelta (rowOf 3 b))%Z,
   rowMerges (rowOf 0 b) + rowMerges (rowOf 1 b)
     + rowMerges (rowOf 2 b) + rowMerges (rowOf 3 b)).
Proof.
  intros Hlen. destruct (board_rows b Hlen) as (Hb & H0 & H1 & H2 & H3).
  rewrite Hb at 1. by apply moveLeftCounted_rows.
Qed.

Lemma moveLeft_length (b : list value) (s : Z) :
  length b = 16 -> length (moveLeft s b).1 = 16.
Proof.
  intros Hlen. unfold moveLeft. rewrite moveLeftCounted_board by done.
  destruct (board_rows b Hlen) as (_ & H0 & H1 & H2 & H3).
  simpl. rewrite !length_app, !rowResult_length by lia. done.
Qed.

(** ** Rotation *)

Lemma rotateOnce_length (b : list value) : length (rotateOnce b) = 16.
Proof. reflexivity. Qed.

Lemma rotateBoard_length (b : list value) (times : nat) :
  length b = 16 -> length (rotateBoard b times) = 16.
Proof.
  intros Hlen. destruct times as [|times]; [done|].
  change (rotateBoard b (S times)) with (rotateOnce (rotateBoard b times)).
  apply rotateOnce_length.
Qed.

(** Four quarter turns bring every cell back. *)
Lemma rotateOnce_four (b : list value) :
  length b = 16 -> rotateOnce (rotateOnce (rotateOnce (rotateOnce b))) = b.
Proof.
  intros Hlen. apply length16_inv in Hlen.
  destruct Hlen as (x0 & x1 & x2 & x3 & x4 & x5 & x6 & x7 & x8 & x9 & x10
                    & x11 & x12 & x13 & x14 & x15 & ->).
  reflexivity.
Qed.

Lemma rotateBoard_add (b : list value) (m n : nat) :
  rotateBoard (rotateBoard b m) n = rotateBoard b (n + m).
Proof. unfold rotateBoard. by rewrite Nat.iter_add. Qed.

Lemma rotateIn_length (direction : string) (b : list value) :
  length b = 16 -> length (rotateIn direction b) = 16.
Proof.
  intros Hlen. unfold rotateIn.
  repeat case_bool_decide; by try apply rotateBoard_length.
Qed.

Lemma rotateOut_length (direction : string) (moved b : list value) :
  length moved = 16 -> length b = 16 -> length (rotateOut direction moved b) = 16.
Proof.
  intros Hm Hlen. unfold rotateOut.
  repeat case_bool_decide; by try apply rotateBoard_length.
Qed.

(** ** Rows of the board [moveLeft] returns *)

Lemma rowOf_rows (r0 r1 r2 r3 : list value) :
  length r0 = 4 -> length r1 = 4 -> length r2 = 4 -> length r3 = 4 ->
  rowOf 0 (r0 ++ r1 ++ r2 ++ r3) = r0 /\ rowOf 1 (r0 ++ r1 ++ r2 ++ r3) = r1
  /\ rowOf 2 (r0 ++ r1 ++ r2 ++ r3) = r2 /\ rowOf 3 (r0 ++ r1 ++ r2 ++ r3) = r3.
Proof.
  intros H0 H1 H2 H3. unfold rowOf. repeat split.
  - by apply (slice_middle [] r0 (r1 ++ r2 ++ r3) 0).
  - by apply (slice_middle r0 r1 (r2 ++ r3) 1).
  - pose proof (slice_middle (r0 ++ r1) r2 r3 2) as E.
    rewrite <- !app_assoc in E. apply E; [rewrite length_app; lia | done].
  - pose proof (slice_middle (r0 ++ r1 ++ r2) r3 [] 3) as E.
    rewrite !app_nil_r in E. rewrite <- !app_assoc in E.
    apply E; [rewrite !length_app; lia | done].
Qed.

(** Each row of the result is the compaction of the same row of the input. *)
Lemma moveLeft_rowOf (b : list value) (s : Z) (row : nat) :
  length b = 16 -> row < 4 ->
  rowOf row (moveLeft s b).1 = rowResult (rowOf row b).
Proof.
  intros Hlen Hrow. unfold moveLeft. rewrite moveLeftCounted_board by done.
  destruct (board_rows b Hlen) as (_ & H0 & H1 & H2 & H3). simpl.
  destruct (rowOf_rows (rowResult (rowOf 0 b)) (rowResult (rowOf 1 b))
              (rowResult (rowOf 2 b)) (rowResult (rowOf 3 b)))
    as (E0 & E1 & E2 & E3); try (apply rowResult_length; lia).
  destruct row as [|[|[|[|row]]]]; [done..|lia].
Qed.

(** ** Spawning *)

Section Spawn.

Implicit Types (a b : list value) (idx spot : nat) (acc : list nat).

Lemma collect_acc (a : list value) (idx : nat) (acc : list nat) :
  Arr.reduceFrom collect a idx acc = acc ++ Arr.reduceFrom collect a idx [].
Proof.
  revert idx acc. induction a as [|x a IH]; intros idx acc; simpl.
  - by rewrite app_nil_r.
  - rewrite (IH _ (collect acc x idx)), (IH _ (collect [] x idx)).
    unfold collect. destruct (strictEq x VNull); simpl; [|done].
    by rewrite <- app_assoc.
Qed.

(** The spots collected are indices of empty cells. *)
Lemma collect_spot (a : list value) (idx spot : nat) :
  spot ∈ Arr.reduceFrom collect a idx [] ->
  exists k, spot = idx + k /\ a !! k = Some VNull.
Proof.
  revert idx. induction a as [|x a IH]; intros idx; simpl.
  - intros Hin. by apply elem_of_nil in Hin.
  - rewrite collect_acc. intros Hin. apply elem_of_app in Hin as [Hin|Hin].
    + unfold collect in Hin. destruct (strictEq x VNull) eqn:Hx.
      * apply strictEq_true in Hx. subst x.
        apply list_elem_of_singleton in Hin. subst spot.
        exists 0. split; [lia | done].
      * by apply elem_of_nil in Hin.
    + destruct (IH _ Hin) as (k & -> & Hk). exists (S k). split; [lia | done].
Qed.

(** Every empty cell is collected. *)
Lemma collect_length (a : list value) (idx : nat) :
  length (Arr.reduceFrom collect a idx []) + nonEmpty a = length a.
Proof.
  revert idx. induction a as [|x a IH]; intros idx; simpl; [done|].
  rewrite collect_acc, length_app. specialize (IH (S idx)).
  unfold nonEmpty in *. rewrite filter_cons.
  change (collect [] x idx) with (if strictEq x VNull then [idx] else []).
  destruct (decide (x = VNull)) as [->|Hne].
  - rewrite strictEq_refl. case_decide; [done|]. simpl. lia.
  - unfold strictEq. rewrite bool_decide_eq_false_2 by done.
    case_decide; [|done]. simpl. lia.
Qed.

Lemma emptySpotsOf_spot (b : list value) (spot : nat) :
  spot ∈ emptySpotsOf b -> b !! spot = Some VNull.
Proof.
  intros Hin. apply collect_spot in Hin. by destruct Hin as (k & -> & Hk).
Qed.

Lemma emptySpotsOf_length (b : list value) :
  length (emptySpotsOf b) + nonEmpty b = length b.
Proof. apply collect_length. Qed.

End Spawn.

Lemma nonEmpty_insert (b : list value) (spot : nat) (v : value) :
  b !! spot = Some VNull -> v <> VNull -> nonEmpty (<[spot := v]> b) = S (nonEmpty b).
Proof.
  revert spot. induction b as [|x b IH]; intros spot Hspot Hv; [done|].
  destruct spot as [|spot]; simpl in *.
  - injection Hspot as ->. unfold nonEmpty. rewrite !filter_cons.
    repeat case_decide; simpl; congruence.
  - specialize (IH spot Hspot Hv). unfold nonEmpty in *. rewrite !filter_cons.
    case_decide; simpl; lia.
Qed.

(** [addRandomTile] leaves a full board alone, and on any other board it
    puts one [H] on a cell that was empty. *)
Lemma addRandomTile_spec (r : rand) (b : list value) :
  (nonEmpty b = length b -> addRandomTile r b = b)
  /\ (nonEmpty b < length b ->
      exists spot, b !! spot = Some VNull /\ addRandomTile r b = <[spot := elH]> b).
Proof.
  pose proof (emptySpotsOf_length b) as Hlen. unfold addRandomTile.
  split; intros Hfull.
  - destruct (0 <? length (emptySpotsOf b)) eqn:Hpos; [|done].
    apply Nat.ltb_lt in Hpos. lia.
  - destruct (0 <? length (emptySpotsOf b)) eqn:Hpos.
    + apply Nat.ltb_lt in Hpos.
      pose proof (floorMul_lt r _ Hpos) as Hidx.
      apply lookup_lt_is_Some_2 in Hidx. destruct Hidx as [spot Hspot].
      rewrite Hspot. exists spot. split; [|done].
      apply emptySpotsOf_spot. by eapply list_elem_of_lookup_2.
    + apply Nat.ltb_ge in Hpos. lia.
Qed.

Lemma addRandomTile_length (r : rand) (b : list value) :
  length (addRandomTile r b) = length b.
Proof.
  unfold addRandomTile. destruct (0 <? _); [|done].
  destruct (_ !! _); [|done]. apply length_insert.
Qed.

Lemma addRandomTile_nonEmpty (r : rand) (b : list value) :
  nonEmpty (addRandomTile r b) =
  if decide (nonEmpty b < length b) then S (nonEmpty b) else nonEmpty b.
Proof.
  destruct (addRandomTile_spec r b) as [Hfull Hspawn].
  pose proof (emptySpotsOf_length b).
  case_decide as Hlt.
  - destruct (Hspawn Hlt) as (spot & Hspot & ->). by apply nonEmpty_insert.
  - rewrite Hfull; [done | lia].
Qed.

(** ** The orchestrator *)

(** [move], with the destructuring of [moveLeft]'s result spelled out. *)
Lemma move_unfold (direction : string) (r : rand) (st : state) :
  move direction r st =
  if gameOver st then st
  else if differs (finalBoardOf direction st) (board st) then
    {| board := addRandomTile r (finalBoardOf direction st);
       score := (moveLeft (score st) (rotateIn direction (board st))).2;
       gameOver := negb (availableMoves (score st)
                           (addRandomTile r (finalBoardOf direction st))) |}
  else st.
Proof.
  unfold move, finalBoardOf. destruct (gameOver st) eqn:Hover; [done|].
  destruct (moveLeft _ _) as [movedBoard newScore]. cbn [fst snd].
  destruct (differs _ _); [|done]. f_equal. by destruct (negb _).
Qed.

(** [simulate] is the final board of [move], whatever the score. *)
Lemma simulate_finalBoardOf (direction : string) (st : state) :
  simulate direction (board st) = finalBoardOf direction st.
Proof.
  unfold simulate, finalBoardOf.
  by rewrite (moveLeft_board_score _ 0%Z (score st)).
Qed.

(** A move that does not change the board changes nothing. *)
Lemma move_rejected (direction : string) (r : rand) (st : state) :
  differs (finalBoardOf direction st) (board st) = false -> move direction r st = st.
Proof. intros Hsame. rewrite move_unfold, Hsame. by destruct (gameOver st). Qed.

(** What the probe of an accepted move decides: the flag is raised exactly
    when, for each of the four rotation counts, [moveLeft] of the rotated
    board has the cells of the board that was rotated. *)
Lemma availableMoves_false (s : Z) (b : list value) :
  availableMoves s b = false <->
  forall dir, dir ∈ directions ->
    differs (moveLeft s (rotateBoard b (probeTimes dir))).1 b = false.
Proof.
  unfold availableMoves.
  rewrite <- not_true_iff_false, existsb_exists. split.
  - intros Hno dir Hin. apply not_true_iff_false. intros Hd.
    apply Hno. exists dir. split; [by apply list_elem_of_In | done].
  - intros Hall (dir & Hin & Hd). apply list_elem_of_In in Hin.
    specialize (Hall dir Hin). simpl in Hd. congruence.
Qed.

Lemma move_length (direction : string) (r : rand) (st : state) :
  length (board st) = 16 -> length (board (move direction r st)) = 16.
Proof.
  intros Hlen. rewrite move_unfold. destruct (gameOver st); [done|].
  destruct (differs _ _); [|done]. simpl.
  rewrite addRandomTile_length. unfold finalBoardOf.
  apply rotateOut_length; [|done].
  apply moveLeft_length. by apply rotateIn_length.
Qed.

Lemma reachable_length (st : state) : reachable st -> length (board st) = 16.
Proof.
  induction 1 as [| r1 r2 | direction r st Hst IH].
  - reflexivity.
  - unfold initializeGame. simpl. by rewrite !addRandomTile_length.
  - by apply move_length.
Qed.

Lemma move_score (direction : string) (r : rand) (st : state) :
  (score st <= score (move direction r st))%Z
  /\ ((score st < score (move direction r st))%Z ->
      0 < mergesOf (rotateIn direction (board st))).
Proof.
  rewrite move_unfold. destruct (gameOver st); [lia|].
  destruct (differs _ _); [|lia]. simpl. apply moveLeft_score.
Qed.

(** ** Counting tiles *)

Lemma getNextElement_null (v : value) : getNextElement v = null <-> v = elO.
Proof.
  split; [|by intros ->].
  intros Hn. destruct (decide (v = elO)) as [|HO]; [done|]. exfalso.
  destruct (decide (v = elH)) as [->|HH]; [discriminate Hn|].
  destruct (decide (v = elC)) as [->|HC]; [discriminate Hn|].
  revert Hn. unfold getNextElement, Arr.indexOf, ELEMENTS.
  cbn [Arr.indexOfFrom]. unfold strictEq.
  rewrite !bool_decide_eq_false_2 by congruence. discriminate.
Qed.

Lemma nonEmpty_app (l1 l2 : list value) : nonEmpty (l1 ++ l2) = nonEmpty l1 + nonEmpty l2.
Proof. unfold nonEmpty. by rewrite filter_app, length_app. Qed.

Lemma nonEmpty_no_null (l : list value) : null ∉ l -> nonEmpty l = length l.
Proof.
  intros Hl. unfold nonEmpty. induction l as [|x l IH]; [done|].
  apply not_elem_of_cons in Hl as [Hx Hl]. rewrite filter_cons.
  rewrite decide_True by done. simpl. by rewrite IH.
Qed.

Lemma nonEmpty_padNulls (l : list value) : nonEmpty (padNulls l) = nonEmpty l.
Proof.
  unfold padNulls. rewrite nonEmpty_app.
  generalize (4 - length l). intros k.
  assert (Hk : nonEmpty (replicate k null) = 0) by (by induction k). lia.
Qed.

Lemma nonEmpty_perm (l1 l2 : list value) : l1 ≡ₚ l2 -> nonEmpty l1 = nonEmpty l2.
Proof. intros Hperm. unfold nonEmpty. by rewrite Hperm. Qed.

(** No merge produces an empty cell unless it merges two [O] tiles. *)
Lemma mergeCells_no_null (cells : list value) :
  elO ∉ cells -> null ∉ cells -> null ∉ (mergeCells cells).1.1.
Proof.
  assert (Hle : length cells <= length cells) by lia.
  revert Hle. generalize (length cells) at 2. intros k.
  revert cells. induction k as [|k IH]; intros cells Hle HO Hnull.
  - destruct cells; [done | simpl in Hle; lia].
  - destruct cells as [|a [|b rest]]; [done..|]. rewrite mergeCells_pair.
    apply not_elem_of_cons in HO as [HaO HO].
    apply not_elem_of_cons in Hnull as [Ha Hnull].
    destruct (strictEq a b).
    + apply not_elem_of_cons in HO as [_ HO].
      apply not_elem_of_cons in Hnull as [_ Hnull].
      pose proof (IH rest ltac:(simpl in *; lia) HO Hnull) as Hrest.
      destruct (mergeCells rest) as [[r d] m]. simpl in *.
      apply not_elem_of_cons. split; [|done].
      intros Hn. symmetry in Hn. apply getNextElement_null in Hn. congruence.
    + pose proof (IH (b :: rest) ltac:(simpl in *; lia) HO Hnull) as Hrest.
      destruct (mergeCells (b :: rest)) as [[r d] m]. simpl in *.
      apply not_elem_of_cons. split; [congruence | done].
Qed.

(** [compactRow] through [mergeCells]. *)
Lemma compactRow_cells (cells : list value) (s : Z) (n : nat) :
  compactRow cells s n =
  let res := mergeCells (filter (fun val => val <> null) cells) in
  (padNulls res.1.1, (s + res.1.2)%Z, n + res.2).
Proof.
  unfold compactRow.
  pose proof (mergeLoop_cells (length (filter (fun val => val <> null) cells)) []
                (filter (fun val => val <> null) cells) s n ltac:(lia)) as E.
  simpl in E. rewrite E. done.
Qed.

(** A row without [O] keeps its tiles, one per merge aside. *)
Lemma rowResult_conserve (cells : list value) :
  elO ∉ cells -> nonEmpty (rowResult cells) + rowMerges cells = nonEmpty cells.
Proof.
  intros HO. unfold rowResult, rowMerges. rewrite compactRow_cells.
  set (kept := filter (fun val => val <> null) cells).
  assert (HkO : elO ∉ kept).
  { unfold kept. intros Hin. apply list_elem_of_filter in Hin. by destruct Hin. }
  assert (Hknull : null ∉ kept).
  { unfold kept. intros Hin. apply list_elem_of_filter in Hin. by destruct Hin. }
  pose proof (mergeCells_no_null kept HkO Hknull) as Hnn.
  pose proof (mergeCells_length kept) as Hlen.
  destruct (mergeCells kept) as [[r d] m]. simpl in *.
  rewrite nonEmpty_padNulls, nonEmpty_no_null by done.
  change (nonEmpty cells) with (length kept). lia.
Qed.

Lemma moveLeft_conserve (b : list value) (s : Z) :
  length b = 16 -> elO ∉ b ->
  nonEmpty (moveLeft s b).1 + mergesOf b = nonEmpty b.
Proof.
  intros Hlen HO. unfold moveLeft, mergesOf. rewrite !moveLeftCounted_board by done.
  destruct (board_rows b Hlen) as (Hb & _). simpl.
  rewrite Hb in HO. rewrite !not_elem_of_app in HO.
  destruct HO as (HO0 & HO1 & HO2 & HO3).
  rewrite !nonEmpty_app.
  pose proof (rowResult_conserve _ HO0). pose proof (rowResult_conserve _ HO1).
  pose proof (rowResult_conserve _ HO2). pose proof (rowResult_conserve _ HO3).
  rewrite Hb at 9. rewrite !nonEmpty_app. lia.
Qed.

(** ** Rotation moves tiles around *)

Lemma rotateOnce_perm (b : list value) : length b = 16 -> rotateOnce b ≡ₚ b.
Proof.
  intros Hlen. apply length16_inv in Hlen.
  destruct Hlen as (x0 & x1 & x2 & x3 & x4 & x5 & x6 & x7 & x8 & x9 & x10
                    & x11 & x12 & x13 & x14 & x15 & ->).
  change (rotateOnce [x0; x1; x2; x3; x4; x5; x6; x7; x8; x9; x10; x11; x12; x13; x14; x15])
    with [x12; x8; x4; x0; x13; x9; x5; x1; x14; x10; x6; x2; x15; x11; x7; x3].
  solve_Permutation.
Qed.

Lemma rotateBoard_perm (b : list value) (times : nat) :
  length b = 16 -> rotateBoard b times ≡ₚ b.
Proof.
  intros Hlen. induction times as [|times IH]; [done|].
  change (rotateBoard b (S times)) with (rotateOnce (rotateBoard b times)).
  rewrite rotateOnce_perm; [done|]. by apply rotateBoard_length.
Qed.

Lemma rotateIn_perm (direction : string) (b : list value) :
  length b = 16 -> rotateIn direction b ≡ₚ b.
Proof.
  intros Hlen. unfold rotateIn.
  repeat case_bool_decide; by try apply rotateBoard_perm.
Qed.

(** An accepted move spawns one tile unless the board is full, and apart from
    that keeps the tiles, one per merge aside, when the board holds no [O]. *)
Lemma move_conserve (direction : string) (r : rand) (st : state) :
  length (board st) = 16 -> elO ∉ board st ->
  board (move direction r st) <> board st ->
  nonEmpty (board (move direction r st)) + mergesOf (rotateIn direction (board st)) =
  nonEmpty (board st)
  + (if decide (nonEmpty (finalBoardOf direction st) < 16) then 1 else 0).
Proof.
  intros Hlen HO Hchanged. rewrite move_unfold in Hchanged |- *.
  destruct (gameOver st); [done|].
  destruct (differs _ _) eqn:Hdiff; [|done]. simpl.
  assert (Hfin : length (finalBoardOf direction st) = 16).
  { unfold finalBoardOf. apply rotateOut_length; [|done].
    apply moveLeft_length. by apply rotateIn_length. }
  rewrite addRandomTile_nonEmpty, Hfin.
  assert (Hcount : nonEmpty (finalBoardOf direction st)
                   + mergesOf (rotateIn direction (board st)) = nonEmpty (board st)).
  { rewrite <- (nonEmpty_perm _ _ (rotateIn_perm direction _ Hlen)).
    rewrite <- (moveLeft_conserve (rotateIn direction (board st)) (score st)).
    - f_equal. apply nonEmpty_perm. revert Hdiff. unfold finalBoardOf, rotateOut.
      pose proof (moveLeft_length (rotateIn direction (board st)) (score st)
                    (rotateIn_length direction _ Hlen)) as Hml.
      repeat case_bool_decide; intros Hdiff; try (by apply rotateBoard_perm); [done|].
      by rewrite differs_refl in Hdiff.
    - by apply rotateIn_length.
    - by rewrite (rotateIn_perm direction _ Hlen). }
  case_decide; lia.
Qed.

(** * The claims *)

(** C1.  Game-over detection.  The flag should be raised after an accepted
    move exactly when simulating the four directions (rotate, [moveLeft],
    rotate back) on the post-spawn board changes nothing.  It is not: the
    probe of [move] compares the board with [moveLeft] of the rotated board,
    without rotating back.  Moving [checkerBefore] left is accepted and
    spawns, whatever the sample, the tile that completes [checker]; no
    direction changes that board, yet the flag stays down. *)
Theorem C1_probe_misses_stuck_board (r : rand) :
  let st := {| board := checkerBefore; score := 0%Z; gameOver := false |} in
  let st' := move "ArrowLeft" r st in
  board st' = checker
  /\ board st' <> board st
  /\ Forall (fun dir => simulate dir (board st') = board st') directions
  /\ gameOver st' = false.
Proof.
  intros st st'.
  assert (Hadd : addRandomTile r (finalBoardOf "ArrowLeft" st) = checker).
  { unfold addRandomTile.
    change (emptySpotsOf (finalBoardOf "ArrowLeft" st)) with [3].
    pose proof (floorMul_lt r 1 ltac:(lia)) as Hidx.
    change (length [3]) with 1. replace (floorMul r 1) with 0 by lia.
    reflexivity. }
  assert (Hst' : st' = {| board := checker; score := 0%Z; gameOver := false |}).
  { unfold st'. rewrite move_unfold.
    change (gameOver st) with false.
    change (differs (finalBoardOf "ArrowLeft" st) (board st)) with true.
    cbv iota. rewrite Hadd. reflexivity. }
  rewrite Hst'. simpl.
  split; [reflexivity|]. split; [discriminate|].
  split; [|reflexivity]. repeat constructor.
Qed.

(** C2.  Two adjacent [O] tiles should stay in place.  They do not:
    [getNextElement] answers [null] for [O], and the merge loop stores that
    answer in the row, so the pair is replaced by one empty cell, to the
    left of the tiles that follow.  The score does not move, but the pass
    counts as a merge and both tiles are gone. *)
Theorem C2_terminal_pair_vanishes :
  getNextElement elO = null
  /\ rowOf 0 terminalPair = [elO; elO; elH; null]
  /\ rowOf 0 (moveLeft 0%Z terminalPair).1 = [null; elH; null; null]
  /\ (moveLeft 0%Z terminalPair).2 = 0%Z
  /\ mergesOf terminalPair = 1.
Proof. repeat split. Qed.

(** C3.  Tile conservation.  After a move that changes the board, the number
    of tiles should be the number before, minus the merges, plus one for the
    spawn.  On [terminalPair] the move left is accepted and performs one
    merge, but that merge removes both [O] tiles: two tiles are left after
    the spawn, where the count says three.  This is the defect of C2. *)
Theorem C3_terminal_pair_loses_a_tile (r : rand) :
  let st := {| board := terminalPair; score := 0%Z; gameOver := false |} in
  let st' := move "ArrowLeft" r st in
  board st' <> board st
  /\ nonEmpty (board st) = 3
  /\ mergesOf (rotateIn "ArrowLeft" (board st)) = 1
  /\ nonEmpty (finalBoardOf "ArrowLeft" st) < length (finalBoardOf "ArrowLeft" st)
  /\ nonEmpty (board st') = 2
  /\ nonEmpty (board st') <> nonEmpty (board st) - 1 + 1.
Proof.
  intros st st'.
  assert (Hst' : board st' = addRandomTile r (finalBoardOf "ArrowLeft" st)).
  { unfold st'. by rewrite move_unfold. }
  assert (Hn : nonEmpty (board st') = 2).
  { rewrite Hst', addRandomTile_nonEmpty. done. }
  split; [|split; [done|split; [done|split; [vm_compute; lia|split; [done|]]]]].
  - intros Heq. rewrite Heq in Hn. discriminate Hn.
  - rewrite Hn. discriminate.
Qed.

(** C4.  A move whose final board (rotate, [moveLeft], rotate back) is the
    board it started from leaves the whole state as it was: board, score
    and flag; nothing is spawned. *)
Theorem C4_ineffective_move_is_noop (direction : string) (r : rand) (st : state) :
  finalBoardOf direction st = board st -> move direction r st = st.
Proof.
  intros Hsame. apply move_rejected. rewrite Hsame. apply differs_refl.
Qed.

Lemma C4_ineffective_move_is_noop_witness :
  let st := {| board := cornerH; score := 7%Z; gameOver := false |} in
  finalBoardOf "ArrowLeft" st = board st /\ move "ArrowLeft" sample0 st = st.
Proof.
  split; [reflexivity|].
  apply (C4_ineffective_move_is_noop "ArrowLeft" sample0). reflexivity.
Defined.

(** C5.  On a board whose row [row] is [H, H, H, empty], [moveLeft] turns
    that row into [C, H, empty, empty]: the leftmost pair merges, once, and
    the new [C] is not merged with the [H] that follows.  The row earns 2,
    and from a safe score, where the additions of the source are exact, the
    score returned is the score given plus what the four rows earn. *)
Theorem C5_triple_H_row (b : list value) (s : Z) (row : nat) :
  length b = 16 -> row < 4 -> rowOf row b = [elH; elH; elH; null] ->
  rowOf row (moveLeft s b).1 = [elC; elH; null; null]
  /\ rowDelta (rowOf row b) = 2%Z
  /\ rowMerges (rowOf row b) = 1
  /\ (safeScore s ->
      (moveLeft s b).2 =
      (s + rowDelta (rowOf 0 b) + rowDelta (rowOf 1 b)
         + rowDelta (rowOf 2 b) + rowDelta (rowOf 3 b))%Z).
Proof.
  intros Hlen Hrow Hcells. rewrite moveLeft_rowOf by done. rewrite Hcells.
  repeat split. intros _. unfold moveLeft. by rewrite moveLeftCounted_board.
Qed.

Lemma C5_triple_H_row_witness :
  (length tripleH = 16 /\ 0 < 4 /\ rowOf 0 tripleH = [elH; elH; elH; null]
   /\ safeScore 5%Z)
  /\ rowOf 0 (moveLeft 5%Z tripleH).1 = [elC; elH; null; null]
  /\ (moveLeft 5%Z tripleH).2 = 7%Z.
Proof.
  assert (Hsafe : safeScore 5%Z) by (unfold safeScore, MAX_SAFE_INTEGER; lia).
  split; [repeat split; try lia; apply Hsafe|].
  destruct (C5_triple_H_row tripleH 5%Z 0 eq_refl ltac:(lia) eq_refl)
    as (Hr & _ & _ & Hs).
  split; [exact Hr | rewrite (Hs Hsafe); reflexivity].
Defined.

(** C6.  Over any sequence of moves the score never goes down, and a move
    raises it only if its [moveLeft] pass merged at least once. *)
Theorem C6_score_monotone :
  (forall keys st, (score st <= score (play keys st))%Z)
  /\ (forall direction r st,
        (score st < score (move direction r st))%Z ->
        0 < mergesOf (rotateIn direction (board st))).
Proof.
  split.
  - intros keys. unfold play. induction keys as [|[direction r] keys IH]; intros st.
    + simpl. lia.
    + cbn [foldl fst snd]. etrans; [|apply IH]. apply move_score.
  - intros direction r st. apply move_score.
Qed.

Lemma C6_score_monotone_witness :
  let st := {| board := tripleH; score := 0%Z; gameOver := false |} in
  (score st < score (move "ArrowLeft" sample0 st))%Z
  /\ 0 < mergesOf (rotateIn "ArrowLeft" (board st)).
Proof.
  split; [reflexivity|].
  apply (proj2 C6_score_monotone "ArrowLeft" sample0). reflexivity.
Defined.

(** C7.  On a board of sixteen cells, a quarter turn followed by three
    quarter turns is the identity, and so are four quarter turns. *)
Theorem C7_rotation_full_circle (B : list value) :
  length B = 16 ->
  rotateBoard (rotateBoard B 1) 3 = B /\ rotateBoard B 4 = B.
Proof.
  intros Hlen. rewrite rotateBoard_add. split; by apply rotateOnce_four.
Qed.

Lemma C7_rotation_full_circle_witness :
  length checkerBefore = 16
  /\ rotateBoard (rotateBoard checkerBefore 1) 3 = checkerBefore
  /\ rotateBoard checkerBefore 4 = checkerBefore.
Proof.
  split; [reflexivity|]. apply (C7_rotation_full_circle checkerBefore). reflexivity.
Defined.

(** C8.  The board has sixteen cells, always: [rotateBoard] (any count),
    [moveLeft] and [addRandomTile] return a board of sixteen cells when given
    one, so does every move, accepted or rejected, and every reachable state
    holds a board of sixteen cells. *)
Theorem C8_board_length :
  (forall b times, length b = 16 -> length (rotateBoard b times) = 16)
  /\ (forall b s, length b = 16 -> length (moveLeft s b).1 = 16)
  /\ (forall r b, length b = 16 -> length (addRandomTile r b) = 16)
  /\ (forall direction r st,
        length (board st) = 16 -> length (board (move direction r st)) = 16)
  /\ (forall st, reachable st -> length (board st) = 16).
Proof.
  split; [apply rotateBoard_length|]. split; [apply moveLeft_length|].
  split; [intros r b Hlen; by rewrite addRandomTile_length|].
  split; [apply move_length | apply reachable_length].
Qed.

Lemma C8_board_length_witness :
  length tripleH = 16
  /\ length (rotateBoard tripleH 3) = 16
  /\ length (moveLeft 0%Z tripleH).1 = 16
  /\ length (addRandomTile sample0 tripleH) = 16
  /\ length (board (move "ArrowDown" sample0
                      {| board := tripleH; score := 0%Z; gameOver := false |})) = 16
  /\ length (board (move "ArrowLeft" sample0 (initializeGame sample0 sample0))) = 16.
Proof.
  destruct C8_board_length as (Hrot & Hleft & Hadd & Hmove & Hreach).
  split; [reflexivity|].
  split; [apply Hrot; reflexivity|].
  split; [apply Hleft; reflexivity|].
  split; [apply Hadd; reflexivity|].
  split; [apply Hmove; reflexivity|].
  apply Hreach. apply reach_move. apply reach_init.
Defined.

(** C9.  A direction that is none of the four arrow keys leaves the state
    as it was: [move] is total, and it changes neither the board, nor the
    score, nor the flag. *)
Theorem C9_unknown_direction_is_noop (direction : string) (r : rand) (st : state) :
  direction <> "ArrowLeft" -> direction <> "ArrowRight" ->
  direction <> "ArrowUp" -> direction <> "ArrowDown" ->
  move direction r st = st.
Proof.
  intros Hl Hr Hu Hd. apply move_rejected. unfold finalBoardOf, rotateOut.
  rewrite !bool_decide_eq_false_2 by done. apply differs_refl.
Qed.

Lemma C9_unknown_direction_is_noop_witness :
  let st := {| board := tripleH; score := 3%Z; gameOver := false |} in
  move "Enter" sample0 st = st.
Proof.
  apply (C9_unknown_direction_is_noop "Enter" sample0); discriminate.
Defined.

(** C10.  For every value that is none of ['H'], ['C'], ['O'], the empty
    cell included, [getNextElement] answers ['H']: [indexOf] gives [-1],
    which passes the test against the last index, and [ELEMENTS[0]] is read. *)
Theorem C10_getNextElement_of_stranger (v : value) :
  v <> elH -> v <> elC -> v <> elO -> getNextElement v = elH.
Proof.
  intros HH HC HO. unfold getNextElement, Arr.indexOf, ELEMENTS.
  cbn [Arr.indexOfFrom]. unfold strictEq.
  rewrite !bool_decide_eq_false_2 by congruence. reflexivity.
Qed.

Lemma C10_getNextElement_of_stranger_witness :
  getNextElement null = elH /\ getNextElement VUndefined = elH
  /\ getNextElement (VStr "N") = elH.
Proof.
  refine (conj _ (conj _ _)); apply C10_getNextElement_of_stranger; discriminate.
Defined.

(** * Further properties of the engine *)

(** ** Spawning, continued *)

(** The spots collected are all the empty cells. *)
Lemma collect_complete (b : list value) (idx k : nat) :
  b !! k = Some null -> idx + k ∈ Arr.reduceFrom collect b idx [].
Proof.
  revert idx k. induction b as [|x b IH]; intros idx k Hk; [done|].
  simpl. rewrite collect_acc. apply elem_of_app.
  destruct k as [|k]; simpl in Hk.
  - left. injection Hk as ->. unfold collect. rewrite strictEq_refl, Nat.add_0_r.
    by apply list_elem_of_singleton.
  - right. replace (idx + S k) with (S idx + k) by lia. by apply IH.
Qed.

Lemma emptySpotsOf_complete (b : list value) (k : nat) :
  b !! k = Some null -> k ∈ emptySpotsOf b.
Proof. intros Hk. by apply (collect_complete b 0 k). Qed.

Lemma nonEmpty_le (b : list value) : nonEmpty b <= length b.
Proof. apply length_filter. Qed.

Lemma nonEmpty_lt (b : list value) : null ∈ b -> nonEmpty b < length b.
Proof.
  intros Hin. apply list_elem_of_lookup_1 in Hin as [k Hk].
  apply emptySpotsOf_complete, list_elem_of_lookup_1 in Hk as [i Hi].
  apply lookup_lt_Some in Hi. pose proof (emptySpotsOf_length b). lia.
Qed.

Lemma addRandomTile_Forall (P : value -> Prop) (r : rand) (b : list value) :
  P elH -> Forall P b -> Forall P (addRandomTile r b).
Proof.
  intros HH Hb. destruct (addRandomTile_spec r b) as [Hfull Hspawn].
  destruct (decide (nonEmpty b < length b)) as [Hlt|Hge].
  - destruct (Hspawn Hlt) as (spot & _ & ->). by apply Forall_insert.
  - rewrite Hfull; [done|]. pose proof (nonEmpty_le b). lia.
Qed.

(** X1.  [addRandomTile] on a board without an empty cell returns the board
    as it is, whatever the sample. *)
Theorem X1_addRandomTile_full_board (r : rand) (b : list value) :
  null ∉ b -> addRandomTile r b = b.
Proof.
  intros Hfull. apply addRandomTile_spec. by apply nonEmpty_no_null.
Qed.

Lemma X1_addRandomTile_full_board_witness :
  (null ∉ checker) /\ addRandomTile sample0 checker = checker.
Proof.
  assert (Hfull : null ∉ checker).
  { unfold checker. rewrite !not_elem_of_cons. repeat split; try discriminate.
    apply not_elem_of_nil. }
  split; [exact Hfull | exact (X1_addRandomTile_full_board sample0 checker Hfull)].
Defined.

(** X2.  On a board with an empty cell, [addRandomTile] writes ['H'] into one
    cell that was empty and leaves every other cell alone: the board keeps
    its length and holds one tile more. *)
Theorem X2_addRandomTile_fills_one_empty_cell (r : rand) (b : list value) :
  null ∈ b ->
  exists spot,
    b !! spot = Some null
    /\ addRandomTile r b = <[spot := elH]> b
    /\ (forall k, k <> spot -> addRandomTile r b !! k = b !! k)
    /\ length (addRandomTile r b) = length b
    /\ nonEmpty (addRandomTile r b) = S (nonEmpty b).
Proof.
  intros Hin. apply nonEmpty_lt in Hin.
  destruct (addRandomTile_spec r b) as [_ Hspawn].
  destruct (Hspawn Hin) as (spot & Hspot & Heq).
  exists spot. split; [done|]. split; [done|]. rewrite Heq.
  split; [|split].
  - intros k Hk. by apply list_lookup_insert_ne.
  - apply length_insert.
  - by apply nonEmpty_insert.
Qed.

Lemma X2_addRandomTile_fills_one_empty_cell_witness :
  (null ∈ tripleH)
  /\ exists spot, tripleH !! spot = Some null
                  /\ addRandomTile sample0 tripleH = <[spot := elH]> tripleH.
Proof.
  assert (Hin : null ∈ tripleH).
  { apply list_elem_of_lookup. exists 3. reflexivity. }
  split; [exact Hin|].
  destruct (X2_addRandomTile_fills_one_empty_cell sample0 tripleH Hin)
    as (spot & Hspot & Heq & _).
  exists spot. split; [exact Hspot | exact Heq].
Defined.

(** X3.  Every empty cell can receive the tile: for each index that holds
    [null] there is a sample of [Math.random()] for which [addRandomTile]
    writes the ['H'] there. *)
Theorem X3_addRandomTile_reaches_every_empty_cell (b : list value) (k : nat) :
  b !! k = Some null -> exists r, addRandomTile r b = <[k := elH]> b.
Proof.
  intros Hk. apply emptySpotsOf_complete, list_elem_of_lookup_1 in Hk as [i Hi].
  pose proof (lookup_lt_Some _ _ _ Hi) as Hlt.
  exists {| rnum := i; rgap := length (emptySpotsOf b) - i - 1 |}.
  unfold addRandomTile. rewrite floorMul_onto by done. rewrite Hi.
  replace (0 <? length (emptySpotsOf b)) with true; [done|].
  symmetry. apply Nat.ltb_lt. lia.
Qed.

Lemma X3_addRandomTile_reaches_every_empty_cell_witness :
  tripleH !! 9 = Some null
  /\ exists r, addRandomTile r tripleH = <[9 := elH]> tripleH.
Proof.
  split; [reflexivity|].
  apply (X3_addRandomTile_reaches_every_empty_cell tripleH 9). reflexivity.
Defined.

(** X4.  [initializeGame] sets the score to 0 and the flag to false, and its
    board has sixteen cells of which exactly two hold a tile, both ['H'],
    whatever the two samples. *)
Theorem X4_initializeGame_two_H_tiles (r1 r2 : rand) :
  let st := initializeGame r1 r2 in
  score st = 0%Z /\ gameOver st = false
  /\ length (board st) = 16
  /\ nonEmpty (board st) = 2
  /\ Forall (fun v => v = null \/ v = elH) (board st).
Proof.
  simpl. split; [done|]. split; [done|].
  split; [by rewrite !addRandomTile_length|].
  split.
  - rewrite addRandomTile_nonEmpty, addRandomTile_length.
    rewrite addRandomTile_nonEmpty. reflexivity.
  - do 2 (apply addRandomTile_Forall; [by right|]).
    apply Forall_replicate. by left.
Qed.

(** ** The progression *)

Lemma getNextElement_cases (v : value) :
  (v = elH /\ getNextElement v = elC)
  \/ (v = elC /\ getNextElement v = elO)
  \/ (v = elO /\ getNextElement v = null)
  \/ (v <> elH /\ v <> elC /\ v <> elO /\ getNextElement v = elH).
Proof.
  destruct (decide (v = elH)) as [->|HH]; [by left|].
  destruct (decide (v = elC)) as [->|HC]; [by right; left|].
  destruct (decide (v = elO)) as [->|HO]; [by right; right; left|].
  right; right; right. repeat (split; [done|]).
  unfold getNextElement, Arr.indexOf, ELEMENTS.
  cbn [Arr.indexOfFrom]. unfold strictEq.
  rewrite !bool_decide_eq_false_2 by congruence. reflexivity.
Qed.

(** X5.  Whatever it is given, [getNextElement] answers ['H'], ['C'], ['O']
    or [null], never [undefined]; and it answers [null] for ['O'] only. *)
Theorem X5_getNextElement_range (v : value) :
  gameCell (getNextElement v) /\ (getNextElement v = null <-> v = elO).
Proof.
  split; [|apply getNextElement_null].
  destruct (getNextElement_cases v)
    as [[_ ->]|[[_ ->]|[[_ ->]|(_ & _ & _ & ->)]]]; unfold gameCell; auto.
Qed.

(** ** Rotation, continued *)

Lemma rotateBoard_quarters (b : list value) (q : nat) :
  length b = 16 -> rotateBoard b (4 * q) = b.
Proof.
  intros Hlen. induction q as [|q IH]; [done|].
  replace (4 * S q) with (4 + 4 * q) by lia.
  rewrite <- rotateBoard_add, IH. by apply rotateOnce_four.
Qed.

(** X6.  Rotations compose by adding their counts, on any array; on a board
    of sixteen cells only the count modulo 4 matters. *)
Theorem X6_rotateBoard_composes :
  (forall b m n, rotateBoard (rotateBoard b m) n = rotateBoard b (m + n))
  /\ (forall b n, length b = 16 -> rotateBoard b n = rotateBoard b (n mod 4)).
Proof.
  split.
  - intros b m n. rewrite rotateBoard_add. f_equal. lia.
  - intros b n Hlen. rewrite (Nat.div_mod_eq n 4) at 1.
    replace (4 * (n / 4) + n mod 4) with (n mod 4 + 4 * (n / 4)) by lia.
    rewrite <- rotateBoard_add. by rewrite rotateBoard_quarters.
Qed.

Lemma X6_rotateBoard_composes_witness :
  length tripleH = 16 /\ rotateBoard tripleH 7 = rotateBoard tripleH (7 mod 4).
Proof.
  split; [reflexivity|]. apply (proj2 X6_rotateBoard_composes tripleH 7). reflexivity.
Defined.

(** X7.  One or more quarter turns of any array, whatever its length, give an
    array of sixteen cells; after one quarter turn the cell in row [i] and
    column [j] is the cell in row [3 - j] and column [i] of the input, and
    [undefined] where the input has no such cell. *)
Theorem X7_rotateBoard_cells :
  (forall b times, length (rotateBoard b (S times)) = 16)
  /\ (forall b i j, i < 4 -> j < 4 ->
        Arr.get (rotateBoard b 1) (i * 4 + j) = Arr.get b ((3 - j) * 4 + i)).
Proof.
  split.
  - intros b times.
    change (rotateBoard b (S times)) with (rotateOnce (rotateBoard b times)).
    apply rotateOnce_length.
  - intros b i j Hi Hj.
    destruct i as [|[|[|[|i]]]]; [| | | |lia];
      (destruct j as [|[|[|[|j]]]]; [| | | |lia]); reflexivity.
Qed.

Lemma X7_rotateBoard_cells_witness :
  (1 < 4 /\ 3 < 4)
  /\ Arr.get (rotateBoard [elH; elC] 1) (1 * 4 + 3) = Arr.get [elH; elC] ((3 - 3) * 4 + 1)
  /\ Arr.get (rotateBoard [elH; elC] 1) (1 * 4 + 3) = elC.
Proof.
  split; [split; lia|]. split; [|reflexivity].
  apply (proj2 X7_rotateBoard_cells [elH; elC] 1 3); lia.
Defined.

(** X8.  Rotating a board of sixteen cells only moves its cells around: the
    result holds the same cells, each as many times, hence as many tiles. *)
Theorem X8_rotateBoard_permutes (b : list value) (times : nat) :
  length b = 16 ->
  rotateBoard b times ≡ₚ b /\ nonEmpty (rotateBoard b times) = nonEmpty b.
Proof.
  intros Hlen. pose proof (rotateBoard_perm b times Hlen) as Hperm.
  split; [done | by apply nonEmpty_perm].
Qed.

Lemma X8_rotateBoard_permutes_witness :
  length terminalPair = 16
  /\ rotateBoard terminalPair 3 ≡ₚ terminalPair
  /\ nonEmpty (rotateBoard terminalPair 3) = nonEmpty terminalPair.
Proof.
  split; [reflexivity|]. apply (X8_rotateBoard_permutes terminalPair 3). reflexivity.
Defined.

(** ** [moveLeft], continued *)

Lemma indexOf_ELEMENTS_le (x : value) : (Arr.indexOf ELEMENTS x <= 2)%Z.
Proof.
  unfold Arr.indexOf, ELEMENTS. cbn [Arr.indexOfFrom].
  repeat destruct (strictEq _ x); lia.
Qed.

(** A merge earns at most 3, and uses up two cells. *)
Lemma mergeCells_bounds (cells : list value) :
  (0 <= (mergeCells cells).1.2 <= 3 * Z.of_nat (mergeCells cells).2)%Z
  /\ 2 * (mergeCells cells).2 <= length cells.
Proof.
  assert (Hle : length cells <= length cells) by lia.
  revert Hle. generalize (length cells) at 2. intros k.
  revert cells. induction k as [|k IH]; intros cells Hle.
  - destruct cells; [simpl; lia | simpl in Hle; lia].
  - destruct cells as [|a [|b rest]]; [simpl; lia..|]. rewrite mergeCells_pair.
    pose proof (indexOf_ELEMENTS_le (getNextElement a)) as Hhi.
    pose proof (indexOf_ge ELEMENTS (getNextElement a)) as Hlo.
    destruct (strictEq a b).
    + pose proof (IH rest ltac:(simpl in *; lia)) as Hrest.
      clear IH. destruct (mergeCells rest) as [[r d] m]. simpl in *. lia.
    + pose proof (IH (b :: rest) ltac:(simpl in *; lia)) as Hrest.
      clear IH. destruct (mergeCells (b :: rest)) as [[r d] m]. simpl in *. lia.
Qed.

Lemma row_cells (cells : list value) :
  rowResult cells = padNulls (mergeCells (filter (fun val => val <> null) cells)).1.1
  /\ rowDelta cells = (mergeCells (filter (fun val => val <> null) cells)).1.2
  /\ rowMerges cells = (mergeCells (filter (fun val => val <> null) cells)).2.
Proof.
  unfold rowResult, rowDelta, rowMerges. rewrite compactRow_cells.
  by destruct (mergeCells _) as [[r d] m].
Qed.

Lemma row_bounds (cells : list value) :
  length cells <= 4 ->
  (0 <= rowDelta cells <= 3 * Z.of_nat (rowMerges cells))%Z /\ rowMerges cells <= 2.
Proof.
  intros Hlen. destruct (row_cells cells) as (_ & -> & ->).
  pose proof (mergeCells_bounds (filter (fun val => val <> null) cells)) as [Hd Hm].
  pose proof (length_filter (fun val => val <> null) cells). lia.
Qed.

(** A row never gains a tile: what it holds afterwards, plus one per merge,
    is at most what it held. *)
Lemma rowResult_le (cells : list value) :
  nonEmpty (rowResult cells) + rowMerges cells <= nonEmpty cells.
Proof.
  destruct (row_cells cells) as (-> & _ & ->).
  pose proof (mergeCells_length (filter (fun val => val <> null) cells)) as Hlen.
  rewrite nonEmpty_padNulls.
  pose proof (nonEmpty_le (mergeCells (filter (fun val => val <> null) cells)).1.1).
  unfold nonEmpty at 2. lia.
Qed.

Lemma filter_tiles (tiles : list value) (k : nat) :
  null ∉ tiles -> filter (fun val => val <> null) (tiles ++ replicate k null) = tiles.
Proof.
  intros Hnn. rewrite filter_app.
  assert (Hk : filter (fun val : value => val <> null) (replicate k null) = []).
  { induction k as [|k IH]; [done|]. simpl. rewrite filter_cons.
    by rewrite decide_False by (intros Hne; by apply Hne). }
  rewrite Hk, app_nil_r. clear Hk.
  induction tiles as [|x tiles IH]; [done|].
  apply not_elem_of_cons in Hnn as [Hx Hnn].
  rewrite filter_cons, decide_True by done. by rewrite IH.
Qed.

Lemma mergeCells_settled (cells : list value) :
  noEqualNeighbours cells -> mergeCells cells = (cells, 0%Z, 0).
Proof.
  induction cells as [|a cells IH]; [done|].
  destruct cells as [|b rest]; [done|].
  intros [Hab Hrest]. rewrite mergeCells_pair.
  unfold strictEq. rewrite bool_decide_eq_false_2 by done.
  by rewrite (IH Hrest).
Qed.

Lemma rowResult_settled (cells : list value) :
  length cells = 4 -> settledRow cells ->
  rowResult cells = cells /\ rowDelta cells = 0%Z /\ rowMerges cells = 0.
Proof.
  intros Hlen (tiles & k & -> & Hnn & Hne).
  destruct (row_cells (tiles ++ replicate k null)) as (-> & -> & ->).
  rewrite filter_tiles, mergeCells_settled by done. simpl.
  split; [|done]. unfold padNulls. do 2 f_equal.
  rewrite length_app, length_replicate in Hlen. lia.
Qed.

Lemma rowOf_elem (b : list value) (row : nat) (x : value) :
  x ∈ rowOf row b -> x ∈ b.
Proof.
  unfold rowOf, Arr.slice. intros Hin.
  by apply subseteq_take, subseteq_drop in Hin.
Qed.

(** X9.  On a board of sixteen cells, each row of the board [moveLeft]
    returns is computed from the same row of the input and from nothing
    else: two boards that agree on a row give results that agree on it,
    whatever their other rows and whatever the scores. *)
Theorem X9_moveLeft_rows_independent (b b' : list value) (s s' : Z) (row : nat) :
  length b = 16 -> length b' = 16 -> row < 4 ->
  rowOf row b = rowOf row b' ->
  rowOf row (moveLeft s b).1 = rowOf row (moveLeft s' b').1.
Proof.
  intros Hlen Hlen' Hrow Hsame. rewrite !moveLeft_rowOf by done. by rewrite Hsame.
Qed.

Lemma X9_moveLeft_rows_independent_witness :
  (length tripleH = 16 /\ length terminalPair = 16 /\ 2 < 4
   /\ rowOf 2 tripleH = rowOf 2 terminalPair)
  /\ rowOf 2 (moveLeft 0%Z tripleH).1 = rowOf 2 (moveLeft 9%Z terminalPair).1.
Proof.
  split; [repeat split; lia|].
  apply (X9_moveLeft_rows_independent tripleH terminalPair 0%Z 9%Z 2);
    [reflexivity | reflexivity | lia | reflexivity].
Defined.

(** *** The score as a JavaScript number *)

(** With room for [k] merges left in the row, the merge loop adds at most
    [3 * k] to the score. *)
Lemma mergeLoop_budget (fuel i : nat) (row : list value) (s : Z) (n k : nat) :
  length row - i <= 2 * k + 1 ->
  (s <= (mergeLoop fuel i row s n).1.2 <= s + 3 * Z.of_nat k)%Z.
Proof.
  revert i row s n k. induction fuel as [|fuel IH]; intros i row s n k Hroom;
    cbn [mergeLoop]; [simpl; lia|].
  destruct (i <? length row - 1) eqn:Hi; [|simpl; lia].
  apply Nat.ltb_lt in Hi. destruct (strictEq _ _).
  - destruct k as [|k]; [lia|].
    pose proof (indexOf_ge ELEMENTS
      (Arr.get (<[i:=getNextElement (Arr.get row i)]> row) i)) as Hlo.
    pose proof (indexOf_ELEMENTS_le
      (Arr.get (<[i:=getNextElement (Arr.get row i)]> row) i)) as Hhi.
    match goal with |- context [mergeLoop fuel ?i' ?r' ?s' ?n'] =>
      pose proof (IH i' r' s' n' k) as Hrest end.
    clear IH. rewrite splice_length, length_insert in Hrest
      by (rewrite length_insert; lia).
    simpl in Hrest. specialize (Hrest ltac:(lia)). lia.
  - pose proof (IH (i + 1) row s n k ltac:(lia)) as Hrest. clear IH. lia.
Qed.

(** One pass of the row loop adds at least 0 and at most 6 to the score, on
    any array. *)
Lemma rowStep_earns (b : list value) (s : Z) (n row : nat) :
  (s <= (rowStep (b, s, n) row).1.2 <= s + 6)%Z.
Proof.
  unfold rowStep.
  set (kept := filter (fun val => val <> null) (Arr.slice (row * 4) (row * 4 + 4) b)).
  assert (Hlen : length kept <= 4).
  { unfold kept, Arr.slice. etrans; [apply length_filter|].
    rewrite length_take. lia. }
  pose proof (mergeLoop_budget (length kept) 0 kept s n 2 ltac:(lia)) as Hm.
  destruct (mergeLoop _ 0 kept s n) as [[cr s'] n']. simpl in Hm.
  destruct (negb _ || _); simpl; lia.
Qed.

(** [moveLeft] adds at least 0 and at most 24 to the score, on any array. *)
Lemma moveLeft_earns (b : list value) (s : Z) :
  (s <= (moveLeft s b).2 <= s + 24)%Z.
Proof.
  unfold moveLeft, moveLeftCounted. change (seq 0 4) with [0; 1; 2; 3]. cbn [foldl].
  pose proof (rowStep_earns b s 0 0) as H0.
  destruct (rowStep (b, s, 0) 0) as [[b0 s0] n0].
  pose proof (rowStep_earns b0 s0 n0 1) as H1.
  destruct (rowStep (b0, s0, n0) 1) as [[b1 s1] n1].
  pose proof (rowStep_earns b1 s1 n1 2) as H2.
  destruct (rowStep (b1, s1, n1) 2) as [[b2 s2] n2].
  pose proof (rowStep_earns b2 s2 n2 3) as H3.
  destruct (rowStep (b2, s2, n2) 3) as [[b3 s3] n3].
  simpl in *. lia.
Qed.

Section NumberAddition.

Variable add : Z -> Z -> Z.
Hypothesis add_exact : exactOnSafe add.

(** While the score has room for the merges left in the row, the additions
    of the merge loop are additions of safe integers with a safe sum. *)
Lemma mergeLoopWith_exact (fuel i : nat) (row : list value) (s : Z) (n k : nat) :
  length row - i <= 2 * k + 1 ->
  (- MAX_SAFE_INTEGER <= s)%Z -> (s + 3 * Z.of_nat k <= MAX_SAFE_INTEGER)%Z ->
  mergeLoopWith add fuel i row s n = mergeLoop fuel i row s n.
Proof.
  revert i row s n k. induction fuel as [|fuel IH]; intros i row s n k Hroom Hlo Hhi;
    cbn [mergeLoopWith mergeLoop]; [done|].
  destruct (i <? length row - 1) eqn:Hi; [|done].
  apply Nat.ltb_lt in Hi. destruct (strictEq _ _).
  - destruct k as [|k]; [lia|].
    pose proof (indexOf_ge ELEMENTS
      (Arr.get (<[i:=getNextElement (Arr.get row i)]> row) i)) as Hdl.
    pose proof (indexOf_ELEMENTS_le
      (Arr.get (<[i:=getNextElement (Arr.get row i)]> row) i)) as Hdh.
    set (d := Arr.indexOf ELEMENTS
                (Arr.get (<[i:=getNextElement (Arr.get row i)]> row) i)) in *.
    assert (Hinner : add d 1%Z = (d + 1)%Z).
    { apply add_exact; unfold safeInteger, MAX_SAFE_INTEGER; lia. }
    assert (Houter : add s (d + 1)%Z = (s + (d + 1))%Z).
    { apply add_exact; unfold safeInteger, MAX_SAFE_INTEGER in *; lia. }
    rewrite Hinner, Houter.
    apply (IH _ _ _ _ k); [|lia|lia].
    rewrite splice_length, length_insert by (rewrite length_insert; lia).
    simpl. lia.
  - apply (IH _ _ _ _ k); lia.
Qed.

Lemma rowStepWith_exact (b : list value) (s : Z) (n row : nat) :
  (- MAX_SAFE_INTEGER <= s)%Z -> (s + 6 <= MAX_SAFE_INTEGER)%Z ->
  rowStepWith add (b, s, n) row = rowStep (b, s, n) row.
Proof.
  intros Hlo Hhi. unfold rowStepWith, rowStep.
  set (kept := filter (fun val => val <> null) (Arr.slice (row * 4) (row * 4 + 4) b)).
  assert (Hlen : length kept <= 4).
  { unfold kept, Arr.slice. etrans; [apply length_filter|].
    rewrite length_take. lia. }
  by rewrite (mergeLoopWith_exact (length kept) 0 kept s n 2) by lia.
Qed.

(** From a safe score, [moveLeft] computed with an addition that is exact on
    the safe integers is [moveLeft] computed with the addition of integers:
    on such scores the model is the source. *)
Lemma moveLeftWith_exact (b : list value) (s : Z) :
  safeScore s -> moveLeftWith add s b = moveLeft s b.
Proof.
  unfold safeScore. intros Hsafe.
  unfold moveLeftWith, moveLeft, moveLeftCounted.
  change (seq 0 4) with [0; 1; 2; 3]. cbn [foldl].
  rewrite rowStepWith_exact by lia.
  pose proof (rowStep_earns b s 0 0) as H0.
  destruct (rowStep (b, s, 0) 0) as [[b0 s0] n0]. simpl in H0.
  rewrite rowStepWith_exact by lia.
  pose proof (rowStep_earns b0 s0 n0 1) as H1.
  destruct (rowStep (b0, s0, n0) 1) as [[b1 s1] n1]. simpl in H1.
  rewrite rowStepWith_exact by lia.
  pose proof (rowStep_earns b1 s1 n1 2) as H2.
  destruct (rowStep (b1, s1, n1) 2) as [[b2 s2] n2]. simpl in H2.
  by rewrite rowStepWith_exact by lia.
Qed.

End NumberAddition.

(** X10.  The score [moveLeft] captures from its closure is only an offset:
    the board returned does not depend on it, and from a safe score, where
    the additions of the source are exact, the score returned is that score
    plus what the same board earns from 0, which is at most 24.  This holds
    for arrays of any length. *)
Theorem X10_moveLeft_score_is_an_offset (b : list value) (s : Z) :
  (moveLeft s b).1 = (moveLeft 0%Z b).1
  /\ (0 <= (moveLeft 0%Z b).2 <= 24)%Z
  /\ (safeScore s -> (moveLeft s b).2 = (s + (moveLeft 0%Z b).2)%Z).
Proof.
  split; [apply moveLeft_board_score|]. split; [apply (moveLeft_earns b 0%Z)|].
  intros _. unfold moveLeft, moveLeftCounted. rewrite (foldl_rowStep_shift _ b s).
  by destruct (foldl rowStep (b, 0%Z, 0) (seq 0 4)) as [[b' d] m].
Qed.

Lemma X10_moveLeft_score_is_an_offset_witness :
  safeScore 100%Z
  /\ (moveLeft 100%Z tripleH).2 = (100 + (moveLeft 0%Z tripleH).2)%Z.
Proof.
  assert (Hsafe : safeScore 100%Z) by (unfold safeScore, MAX_SAFE_INTEGER; lia).
  split; [exact Hsafe|].
  exact (proj2 (proj2 (X10_moveLeft_score_is_an_offset tripleH 100%Z)) Hsafe).
Defined.

(** X11.  On a board of sixteen cells one pass of [moveLeft] performs at most
    8 merges and never lowers the score; from a safe score, where the
    additions of the source are exact, it raises the score by at most 3 per
    merge, so by at most 24. *)
Theorem X11_moveLeft_score_bounds (b : list value) (s : Z) :
  length b = 16 ->
  mergesOf b <= 8
  /\ (s <= (moveLeft s b).2)%Z
  /\ (safeScore s ->
      ((moveLeft s b).2 <= s + 3 * Z.of_nat (mergesOf b))%Z
      /\ ((moveLeft s b).2 <= s + 24)%Z).
Proof.
  intros Hlen. unfold moveLeft, mergesOf. rewrite !moveLeftCounted_board by done.
  destruct (board_rows b Hlen) as (_ & H0 & H1 & H2 & H3). simpl.
  pose proof (row_bounds (rowOf 0 b) ltac:(lia)).
  pose proof (row_bounds (rowOf 1 b) ltac:(lia)).
  pose proof (row_bounds (rowOf 2 b) ltac:(lia)).
  pose proof (row_bounds (rowOf 3 b) ltac:(lia)).
  split; [lia|]. split; [lia|]. intros _. lia.
Qed.

Lemma X11_moveLeft_score_bounds_witness :
  (length tripleH = 16 /\ safeScore 10%Z)
  /\ mergesOf tripleH <= 8 /\ ((moveLeft 10%Z tripleH).2 <= 10 + 24)%Z.
Proof.
  assert (Hsafe : safeScore 10%Z) by (unfold safeScore, MAX_SAFE_INTEGER; lia).
  split; [split; [reflexivity | exact Hsafe]|].
  destruct (X11_moveLeft_score_bounds tripleH 10%Z eq_refl) as (Hm & _ & Hs).
  split; [exact Hm | exact (proj2 (Hs Hsafe))].
Defined.

(** X12.  [moveLeft] never creates a tile: on a board of sixteen cells the
    tiles left, plus one per merge, are at most the tiles there were; and
    they are exactly as many when the board holds no ['O']. *)
Theorem X12_moveLeft_tile_count (b : list value) (s : Z) :
  length b = 16 ->
  nonEmpty (moveLeft s b).1 + mergesOf b <= nonEmpty b
  /\ (elO ∉ b -> nonEmpty (moveLeft s b).1 + mergesOf b = nonEmpty b).
Proof.
  intros Hlen. split; [|by apply moveLeft_conserve].
  unfold moveLeft, mergesOf. rewrite !moveLeftCounted_board by done.
  destruct (board_rows b Hlen) as (Hb & _). simpl.
  rewrite !nonEmpty_app.
  pose proof (rowResult_le (rowOf 0 b)). pose proof (rowResult_le (rowOf 1 b)).
  pose proof (rowResult_le (rowOf 2 b)). pose proof (rowResult_le (rowOf 3 b)).
  rewrite Hb at 9. rewrite !nonEmpty_app. lia.
Qed.

Lemma X12_moveLeft_tile_count_witness :
  length terminalPair = 16
  /\ nonEmpty (moveLeft 0%Z terminalPair).1 + mergesOf terminalPair
     <= nonEmpty terminalPair.
Proof.
  split; [reflexivity|].
  exact (proj1 (X12_moveLeft_tile_count terminalPair 0%Z eq_refl)).
Defined.

(** X13.  On a board of sixteen cells that holds no ['O'], every row of the
    board [moveLeft] returns is packed to the left: its tiles come first and
    the empty cells after them. *)
Theorem X13_moveLeft_packs_rows (b : list value) (s : Z) (row : nat) :
  length b = 16 -> elO ∉ b -> row < 4 ->
  exists tiles,
    rowOf row (moveLeft s b).1 = tiles ++ replicate (4 - length tiles) null
    /\ null ∉ tiles.
Proof.
  intros Hlen HO Hrow. rewrite moveLeft_rowOf by done.
  destruct (row_cells (rowOf row b)) as (-> & _ & _).
  set (kept := filter (fun val => val <> null) (rowOf row b)).
  exists (mergeCells kept).1.1. split; [done|].
  apply mergeCells_no_null.
  - intros Hin. apply list_elem_of_filter in Hin as [_ Hin]. apply HO.
    by apply rowOf_elem in Hin.
  - intros Hin. apply list_elem_of_filter in Hin. by destruct Hin.
Qed.

Lemma X13_moveLeft_packs_rows_witness :
  (length checkerBefore = 16 /\ (elO ∉ checkerBefore) /\ 0 < 4)
  /\ exists tiles,
       rowOf 0 (moveLeft 0%Z checkerBefore).1 = tiles ++ replicate (4 - length tiles) null
       /\ null ∉ tiles.
Proof.
  assert (HO : elO ∉ checkerBefore).
  { unfold checkerBefore. rewrite !not_elem_of_cons. repeat split; try discriminate.
    apply not_elem_of_nil. }
  split; [split; [reflexivity | split; [exact HO | lia]]|].
  exact (X13_moveLeft_packs_rows checkerBefore 0%Z 0 eq_refl HO ltac:(lia)).
Defined.

(** X14.  A board of sixteen cells whose four rows are each packed to the
    left, with no two equal tiles side by side, is left as it is by
    [moveLeft], with the score it was given and without a merge; a move to
    the left on it is rejected. *)
Theorem X14_moveLeft_settled_board (st : state) (r : rand) :
  length (board st) = 16 ->
  (forall row, row < 4 -> settledRow (rowOf row (board st))) ->
  moveLeft (score st) (board st) = (board st, score st)
  /\ mergesOf (board st) = 0
  /\ move "ArrowLeft" r st = st.
Proof.
  intros Hlen Hrows.
  destruct (board_rows (board st) Hlen) as (Hb & H0 & H1 & H2 & H3).
  destruct (rowResult_settled _ H0 (Hrows 0 ltac:(lia))) as (R0 & D0 & M0).
  destruct (rowResult_settled _ H1 (Hrows 1 ltac:(lia))) as (R1 & D1 & M1).
  destruct (rowResult_settled _ H2 (Hrows 2 ltac:(lia))) as (R2 & D2 & M2).
  destruct (rowResult_settled _ H3 (Hrows 3 ltac:(lia))) as (R3 & D3 & M3).
  assert (Hml : moveLeft (score st) (board st) = (board st, score st)).
  { unfold moveLeft. rewrite moveLeftCounted_board by done. simpl.
    rewrite R0, R1, R2, R3, D0, D1, D2, D3, <- Hb. f_equal. lia. }
  split; [done|]. split.
  - unfold mergesOf. rewrite moveLeftCounted_board by done. simpl. lia.
  - apply move_rejected. unfold finalBoardOf. change (rotateIn "ArrowLeft" (board st))
      with (board st). rewrite Hml. apply differs_refl.
Qed.

Lemma X14_moveLeft_settled_board_witness :
  let st := {| board := checker; score := 4%Z; gameOver := false |} in
  moveLeft (score st) (board st) = (board st, score st)
  /\ move "ArrowLeft" sample0 st = st.
Proof.
  intros st.
  assert (Hrows : forall row, row < 4 -> settledRow (rowOf row (board st))).
  { intros row Hrow.
    destruct row as [|[|[|[|row]]]]; [| | | |lia];
      (match goal with |- settledRow ?c =>
         let c' := eval vm_compute in c in change c with c'; exists c', 0 end;
       split; [reflexivity|]; split;
       [rewrite !not_elem_of_cons; repeat split; try discriminate; apply not_elem_of_nil
       |simpl; repeat split; discriminate]). }
  destruct (X14_moveLeft_settled_board st sample0 eq_refl Hrows) as (Hml & _ & Hmove).
  split; [exact Hml | exact Hmove].
Defined.

(** X15.  A row of four equal tiles merges into two tiles: the two pairs
    merge from the left, each tile once, and the two new tiles are not
    merged with each other in the same pass. *)
Theorem X15_four_equal_tiles (x : value) :
  x <> null ->
  rowResult [x; x; x; x] = [getNextElement x; getNextElement x; null; null]
  /\ rowMerges [x; x; x; x] = 2
  /\ rowDelta [x; x; x; x] = (2 * (Arr.indexOf ELEMENTS (getNextElement x) + 1))%Z.
Proof.
  intros Hx. destruct (row_cells [x; x; x; x]) as (-> & -> & ->).
  assert (Hnn : null ∉ [x; x; x; x]).
  { rewrite !not_elem_of_cons. repeat split; try congruence. apply not_elem_of_nil. }
  pose proof (filter_tiles [x; x; x; x] 0 Hnn) as Hkept.
  change ([x; x; x; x] ++ replicate 0 null) with [x; x; x; x] in Hkept.
  rewrite Hkept, !mergeCells_pair, !strictEq_refl. simpl.
  repeat split. lia.
Qed.

Lemma X15_four_equal_tiles_witness :
  elH <> null
  /\ rowResult [elH; elH; elH; elH] = [elC; elC; null; null]
  /\ rowDelta [elH; elH; elH; elH] = 4%Z.
Proof.
  split; [discriminate|].
  destruct (X15_four_equal_tiles elH ltac:(discriminate)) as (Hr & _ & Hd).
  split; [exact Hr | exact Hd].
Defined.

(** ** Invariants of the reachable states *)

Lemma gameCell_next (v : value) : gameCell (getNextElement v).
Proof.
  destruct (getNextElement_cases v)
    as [[_ ->]|[[_ ->]|[[_ ->]|(_ & _ & _ & ->)]]]; unfold gameCell; auto.
Qed.

Lemma mergeCells_gameCell (cells : list value) :
  Forall gameCell cells -> Forall gameCell (mergeCells cells).1.1.
Proof.
  assert (Hle : length cells <= length cells) by lia.
  revert Hle. generalize (length cells) at 2. intros k.
  revert cells. induction k as [|k IH]; intros cells Hle Hcells.
  - destruct cells; [done | simpl in Hle; lia].
  - destruct cells as [|a [|b rest]]; [done..|]. rewrite mergeCells_pair.
    apply Forall_cons in Hcells as [Ha Hcells].
    destruct (strictEq a b).
    + apply Forall_cons in Hcells as [_ Hrest].
      pose proof (IH rest ltac:(simpl in *; lia) Hrest) as Hr.
      destruct (mergeCells rest) as [[r d] m]. simpl in *.
      apply Forall_cons. split; [apply gameCell_next | done].
    + pose proof (IH (b :: rest) ltac:(simpl in *; lia) Hcells) as Hr.
      destruct (mergeCells (b :: rest)) as [[r d] m]. simpl in *.
      by apply Forall_cons.
Qed.

Lemma rowResult_gameCell (cells : list value) :
  Forall gameCell cells -> Forall gameCell (rowResult cells).
Proof.
  intros Hcells. destruct (row_cells cells) as (-> & _ & _).
  unfold padNulls. apply Forall_app. split.
  - apply mergeCells_gameCell. apply Forall_forall. intros x Hin.
    apply list_elem_of_filter in Hin as [_ Hin].
    by apply (proj1 (Forall_forall _ _) Hcells).
  - apply Forall_replicate. by left.
Qed.

Lemma moveLeft_gameCell (b : list value) (s : Z) :
  length b = 16 -> Forall gameCell b -> Forall gameCell (moveLeft s b).1.
Proof.
  intros Hlen Hb. unfold moveLeft. rewrite moveLeftCounted_board by done. simpl.
  assert (Hrow : forall row, Forall gameCell (rowResult (rowOf row b))).
  { intros row. apply rowResult_gameCell. apply Forall_forall. intros x Hin.
    apply rowOf_elem in Hin. by apply (proj1 (Forall_forall _ _) Hb). }
  rewrite !Forall_app. by repeat split.
Qed.

Lemma rotateBoard_gameCell (b : list value) (times : nat) :
  length b = 16 -> Forall gameCell b -> Forall gameCell (rotateBoard b times).
Proof. intros Hlen Hb. by rewrite (rotateBoard_perm b times Hlen). Qed.

Lemma move_gameCell (direction : string) (r : rand) (st : state) :
  length (board st) = 16 -> Forall gameCell (board st) ->
  Forall gameCell (board (move direction r st)).
Proof.
  intros Hlen Hb. rewrite move_unfold. destruct (gameOver st); [done|].
  destruct (differs _ _); [|done]. simpl.
  apply addRandomTile_Forall; [by right; left|].
  assert (Hin : Forall gameCell (rotateIn direction (board st))).
  { unfold rotateIn. repeat case_bool_decide; by try apply rotateBoard_gameCell. }
  pose proof (moveLeft_gameCell _ (score st) (rotateIn_length direction _ Hlen) Hin) as Hm.
  pose proof (moveLeft_length _ (score st) (rotateIn_length direction _ Hlen)) as Hml.
  unfold finalBoardOf, rotateOut.
  repeat case_bool_decide; by try apply rotateBoard_gameCell.
Qed.

(** Every move is rejected before [initializeGame] has run: the board is empty. *)
Lemma move_mounted (direction : string) (r : rand) : move direction r mounted = mounted.
Proof.
  apply move_rejected. unfold finalBoardOf, rotateOut, rotateIn.
  repeat case_bool_decide; reflexivity.
Qed.

(** X16.  In every reachable state each cell of the board is empty or holds
    ['H'], ['C'] or ['O']: no [undefined] and no other string ever gets on
    the board. *)
Theorem X16_reachable_cells (st : state) :
  reachable st -> Forall gameCell (board st).
Proof.
  induction 1 as [| r1 r2 | direction r st Hst IH].
  - apply Forall_replicate. by left.
  - unfold initializeGame. simpl.
    do 2 (apply addRandomTile_Forall; [by right; left|]).
    apply Forall_replicate. by left.
  - apply move_gameCell; [by apply reachable_length | done].
Qed.

Lemma X16_reachable_cells_witness :
  Forall gameCell (board (move "ArrowUp" sample0 (initializeGame sample0 sample0))).
Proof.
  apply X16_reachable_cells. apply reach_move. apply reach_init.
Defined.

(** X17.  In every reachable state the score is at least 0. *)
Theorem X17_reachable_score (st : state) : reachable st -> (0 <= score st)%Z.
Proof.
  induction 1 as [| r1 r2 | direction r st Hst IH]; [done..|].
  pose proof (move_score direction r st) as [Hle _]. lia.
Qed.

Lemma X17_reachable_score_witness :
  (0 <= score (move "ArrowLeft" sample0 (initializeGame sample0 sample0)))%Z.
Proof.
  apply X17_reachable_score. apply reach_move. apply reach_init.
Defined.

(** X18.  Once [initializeGame] has run the board is never empty: a reachable
    state is the mounted state, which no move changes, or its board holds at
    least one tile. *)
Theorem X18_reachable_not_empty (st : state) :
  reachable st -> st = mounted \/ 1 <= nonEmpty (board st).
Proof.
  induction 1 as [| r1 r2 | direction r st Hst IH].
  - by left.
  - right. unfold initializeGame. simpl.
    rewrite addRandomTile_nonEmpty, addRandomTile_length.
    rewrite addRandomTile_nonEmpty. simpl. lia.
  - destruct IH as [->|IH]; [left; apply move_mounted|]. right.
    pose proof (reachable_length st Hst) as Hlen.
    rewrite move_unfold. destruct (gameOver st); [done|].
    destruct (differs _ _); [|done]. simpl.
    rewrite addRandomTile_nonEmpty.
    assert (Hfin : length (finalBoardOf direction st) = 16).
    { unfold finalBoardOf. apply rotateOut_length; [|done].
      apply moveLeft_length. by apply rotateIn_length. }
    rewrite Hfin. case_decide; lia.
Qed.

Lemma X18_reachable_not_empty_witness :
  let st := move "ArrowLeft" sample0 (initializeGame sample0 sample0) in
  st = mounted \/ 1 <= nonEmpty (board st).
Proof.
  apply X18_reachable_not_empty. apply reach_move. apply reach_init.
Defined.

(** X19.  Game over is final: from a state whose flag is up, no key
    sequence changes the board, the score or the flag. *)
Theorem X19_gameOver_is_absorbing (keys : list (string * rand)) (st : state) :
  gameOver st = true -> play keys st = st.
Proof.
  intros Hover. unfold play. induction keys as [|[direction r] keys IH]; [done|].
  cbn [foldl fst snd]. rewrite move_unfold, Hover. apply IH.
Qed.

Lemma X19_gameOver_is_absorbing_witness :
  let st := {| board := tripleH; score := 6%Z; gameOver := true |} in
  play [("ArrowLeft", sample0); ("ArrowDown", sample0)] st = st.
Proof.
  apply (X19_gameOver_is_absorbing [("ArrowLeft", sample0); ("ArrowDown", sample0)]).
  reflexivity.
Defined.

(** ** What each arrow key does to the board *)

Ltac board_cases b Hlen i Hi :=
  apply length16_inv in Hlen;
  destruct Hlen as (?x0 & ?x1 & ?x2 & ?x3 & ?x4 & ?x5 & ?x6 & ?x7 & ?x8 & ?x9 & ?x10
                    & ?x11 & ?x12 & ?x13 & ?x14 & ?x15 & ->);
  destruct i as [|[|[|[|i]]]]; [reflexivity..|lia].

Lemma rowOf_rotate1 (b : list value) (i : nat) :
  length b = 16 -> i < 4 -> rowOf i (rotateBoard b 1) = colUp i b.
Proof. intros Hlen Hi. board_cases b Hlen i Hi. Qed.

Lemma rowOf_rotate2 (b : list value) (i : nat) :
  length b = 16 -> i < 4 -> rowOf i (rotateBoard b 2) = reverse (rowOf (3 - i) b).
Proof. intros Hlen Hi. board_cases b Hlen i Hi. Qed.

Lemma rowOf_rotate3 (b : list value) (i : nat) :
  length b = 16 -> i < 4 -> rowOf i (rotateBoard b 3) = colDown (3 - i) b.
Proof. intros Hlen Hi. board_cases b Hlen i Hi. Qed.

Lemma colUp_rotate3 (b : list value) (j : nat) :
  length b = 16 -> j < 4 -> colUp j (rotateBoard b 3) = rowOf j b.
Proof. intros Hlen Hj. board_cases b Hlen j Hj. Qed.

Lemma colDown_rotate1 (b : list value) (j : nat) :
  length b = 16 -> j < 4 -> colDown j (rotateBoard b 1) = rowOf (3 - j) b.
Proof. intros Hlen Hj. board_cases b Hlen j Hj. Qed.

Lemma finalBoardOf_arrows (st : state) :
  finalBoardOf "ArrowLeft" st = (moveLeft (score st) (board st)).1
  /\ finalBoardOf "ArrowRight" st
     = rotateBoard (moveLeft (score st) (rotateBoard (board st) 2)).1 2
  /\ finalBoardOf "ArrowUp" st
     = rotateBoard (moveLeft (score st) (rotateBoard (board st) 1)).1 3
  /\ finalBoardOf "ArrowDown" st
     = rotateBoard (moveLeft (score st) (rotateBoard (board st) 3)).1 1.
Proof. repeat split. Qed.

(** X20.  On a board of sixteen cells, ArrowLeft packs and merges each row
    toward its first cell, and ArrowRight toward its last cell: the row read
    from right to left becomes what [moveLeft] makes of the row read from
    right to left. *)
Theorem X20_horizontal_moves (st : state) (row : nat) :
  length (board st) = 16 -> row < 4 ->
  rowOf row (finalBoardOf "ArrowLeft" st) = rowResult (rowOf row (board st))
  /\ reverse (rowOf row (finalBoardOf "ArrowRight" st))
     = rowResult (reverse (rowOf row (board st))).
Proof.
  intros Hlen Hrow. destruct (finalBoardOf_arrows st) as (-> & -> & _).
  split; [by apply moveLeft_rowOf|].
  pose proof (rotateBoard_length (board st) 2 Hlen) as Hrot.
  rewrite rowOf_rotate2, reverse_involutive by (by try apply moveLeft_length).
  rewrite moveLeft_rowOf, rowOf_rotate2 by (done || lia).
  by replace (3 - (3 - row)) with row by lia.
Qed.

Lemma X20_horizontal_moves_witness :
  let st := {| board := tripleH; score := 0%Z; gameOver := false |} in
  (length (board st) = 16 /\ 0 < 4)
  /\ rowOf 0 (finalBoardOf "ArrowRight" st) = [null; null; elH; elC].
Proof.
  intros st. split; [split; [reflexivity | lia]|].
  pose proof (proj2 (X20_horizontal_moves st 0 eq_refl ltac:(lia))) as Hright.
  apply (f_equal reverse) in Hright. rewrite reverse_involutive in Hright.
  rewrite Hright. reflexivity.
Defined.

(** X21.  On a board of sixteen cells, ArrowUp packs and merges each column
    toward the bottom row, and ArrowDown toward the top row: the column read
    from the bottom up (for ArrowUp) or from the top down (for ArrowDown)
    becomes what [moveLeft] makes of the column read the same way. *)
Theorem X21_vertical_moves (st : state) (j : nat) :
  length (board st) = 16 -> j < 4 ->
  colUp j (finalBoardOf "ArrowUp" st) = rowResult (colUp j (board st))
  /\ colDown j (finalBoardOf "ArrowDown" st) = rowResult (colDown j (board st)).
Proof.
  intros Hlen Hj. destruct (finalBoardOf_arrows st) as (_ & _ & -> & ->).
  pose proof (rotateBoard_length (board st) 1 Hlen) as Hrot1.
  pose proof (rotateBoard_length (board st) 3 Hlen) as Hrot3.
  split.
  - rewrite colUp_rotate3 by (by try apply moveLeft_length).
    by rewrite moveLeft_rowOf, rowOf_rotate1.
  - rewrite colDown_rotate1 by (by try apply moveLeft_length).
    rewrite moveLeft_rowOf, rowOf_rotate3 by (done || lia).
    by replace (3 - (3 - j)) with j by lia.
Qed.

Lemma X21_vertical_moves_witness :
  let st := {| board := cornerH; score := 0%Z; gameOver := false |} in
  (length (board st) = 16 /\ 0 < 4)
  /\ colUp 0 (finalBoardOf "ArrowUp" st) = [elH; null; null; null]
  /\ Arr.get (finalBoardOf "ArrowUp" st) 12 = elH.
Proof.
  intros st. split; [split; [reflexivity | lia]|].
  pose proof (proj1 (X21_vertical_moves st 0 eq_refl ltac:(lia))) as Hup.
  split; [rewrite Hup; reflexivity | reflexivity].
Defined.

(** ** Accepted moves *)

(** X22.  A move that changes a board of sixteen cells holding no ['O'] keeps
    the tiles, one per merge aside, and adds the spawned one: the tiles
    after, plus the merges, are the tiles before plus one, or plus none when
    the moved board was full. *)
Theorem X22_move_tile_count (direction : string) (r : rand) (st : state) :
  length (board st) = 16 -> elO ∉ board st ->
  board (move direction r st) <> board st ->
  nonEmpty (board (move direction r st)) + mergesOf (rotateIn direction (board st)) =
  nonEmpty (board st)
  + (if decide (nonEmpty (finalBoardOf direction st) < 16) then 1 else 0).
Proof. apply move_conserve. Qed.

Lemma X22_move_tile_count_witness :
  let st := {| board := tripleH; score := 0%Z; gameOver := false |} in
  (length (board st) = 16 /\ (elO ∉ board st)
   /\ board (move "ArrowLeft" sample0 st) <> board st)
  /\ nonEmpty (board (move "ArrowLeft" sample0 st)) + 1 = 3 + 1.
Proof.
  intros st.
  assert (HO : elO ∉ board st).
  { unfold st, board, tripleH. rewrite !not_elem_of_cons.
    repeat split; try discriminate. apply not_elem_of_nil. }
  assert (Hch : board (move "ArrowLeft" sample0 st) <> board st).
  { vm_compute. discriminate. }
  split; [split; [reflexivity | split; [exact HO | exact Hch]]|].
  exact (X22_move_tile_count "ArrowLeft" sample0 st eq_refl HO Hch).
Defined.

(** ** The key handler *)

Lemma move_other_key (key : string) (r : rand) (st : state) :
  key ∉ directions -> move key r st = st.
Proof.
  unfold directions. rewrite !not_elem_of_cons. intros (Hl & Hr & Hu & Hd & _).
  apply move_rejected. unfold finalBoardOf, rotateOut.
  rewrite !bool_decide_eq_false_2 by done. apply differs_refl.
Qed.

(** X23.  [handleKeyDown] leaves the state that [move] computes for the key,
    for every key: the keys it filters out are those [move] ignores anyway.
    It calls [preventDefault] exactly for the four arrow keys, also when the
    game is over or the move is rejected. *)
Theorem X23_handleKeyDown (key : string) (r : rand) (st : state) :
  (handleKeyDown key r st).1 = move key r st
  /\ ((handleKeyDown key r st).2 = true <-> key ∈ directions).
Proof.
  unfold handleKeyDown. case_bool_decide as Hkey; simpl.
  - split; [done|]. by split.
  - split; [by rewrite move_other_key|]. by split.
Qed.

(** ** The game-over probe *)

Lemma tile_le (v : value) : tile v <= 1.
Proof. unfold tile. case_decide; lia. Qed.

Lemma tile_0 (v : value) : tile v = 0 -> v = null.
Proof. unfold tile. by case_decide. Qed.

Lemma tile_1 (v : value) : tile v = 1 -> v <> null.
Proof. unfold tile. by case_decide. Qed.

Lemma nonEmpty_cons (x : value) (l : list value) :
  nonEmpty (x :: l) = tile x + nonEmpty l.
Proof.
  unfold nonEmpty, tile. rewrite filter_cons.
  repeat case_decide; simpl; congruence.
Qed.

Lemma pack_full (cells : list value) :
  null ∉ cells -> length cells = 4 -> pack cells = cells.
Proof.
  intros Hnn Hlen. unfold pack, padNulls.
  pose proof (filter_tiles cells 0 Hnn) as Hkept.
  change (replicate 0 null) with (@nil value) in Hkept.
  rewrite app_nil_r in Hkept. rewrite Hkept, Hlen. apply app_nil_r.
Qed.

(** Where the tiles of a packed row are. *)
Lemma packed_cells (a0 a1 a2 a3 : value) (cells : list value) :
  [a0; a1; a2; a3] = pack cells ->
  packedAt (tile a0) (tile a1) (tile a2) (tile a3) (nonEmpty cells).
Proof.
  unfold pack, padNulls, nonEmpty.
  assert (Hk : forall v, v ∈ filter (fun val => val <> null) cells -> tile v = 1).
  { intros v Hin. apply list_elem_of_filter in Hin as [Hv _].
    unfold tile. by rewrite decide_False. }
  revert Hk. generalize (filter (fun val => val <> null) cells). intros kept Hk.
  destruct kept as [|k0 [|k1 [|k2 [|k3 [|k4 kept]]]]]; simpl in *;
    intros Heq; [| | | | |discriminate Heq]; injection Heq as -> -> -> ->;
    rewrite ?Hk by (rewrite ?elem_of_cons; auto 10);
    unfold packedAt; change (tile null) with 0; lia.
Qed.

Lemma mergeCells_no_merge (cells : list value) :
  (mergeCells cells).2 = 0 -> (mergeCells cells).1.1 = cells.
Proof.
  induction cells as [|a cells IH]; [done|].
  destruct cells as [|b rest]; [done|]. rewrite mergeCells_pair.
  destruct (strictEq a b).
  - destruct (mergeCells rest) as [[r d] m]. discriminate.
  - destruct (mergeCells (b :: rest)) as [[r d] m]. simpl in *.
    intros Hm. by rewrite IH.
Qed.

Lemma rowResult_no_merge (cells : list value) :
  rowMerges cells = 0 -> rowResult cells = pack cells.
Proof.
  destruct (row_cells cells) as (-> & _ & ->). intros Hm.
  unfold pack. by rewrite mergeCells_no_merge.
Qed.

Lemma nonEmpty_rows (x : list value) :
  length x = 16 ->
  nonEmpty x = nonEmpty (rowOf 0 x) + nonEmpty (rowOf 1 x)
               + nonEmpty (rowOf 2 x) + nonEmpty (rowOf 3 x).
Proof.
  intros Hlen. destruct (board_rows x Hlen) as (Hx & _).
  rewrite Hx at 1. rewrite !nonEmpty_app. lia.
Qed.

(** When [moveLeft] returns as many tiles as it was given, it has merged
    nothing and every row is the compaction of the row it was. *)
Lemma moveLeft_same_count (x : list value) (s : Z) (i : nat) :
  length x = 16 -> nonEmpty (moveLeft s x).1 = nonEmpty x -> i < 4 ->
  rowOf i (moveLeft s x).1 = pack (rowOf i x).
Proof.
  intros Hlen Hcount Hi. rewrite moveLeft_rowOf by done.
  apply rowResult_no_merge.
  rewrite (nonEmpty_rows x Hlen) in Hcount. revert Hcount.
  unfold moveLeft. rewrite moveLeftCounted_board by done. simpl.
  rewrite !nonEmpty_app.
  pose proof (rowResult_le (rowOf 0 x)). pose proof (rowResult_le (rowOf 1 x)).
  pose proof (rowResult_le (rowOf 2 x)). pose proof (rowResult_le (rowOf 3 x)).
  destruct i as [|[|[|[|i]]]]; lia.
Qed.

(** What one query of the probe says when it finds no difference. *)
Lemma probe_query (b : list value) (s : Z) (k i : nat) :
  length b = 16 -> differs (moveLeft s (rotateBoard b k)).1 b = false -> i < 4 ->
  (moveLeft s (rotateBoard b k)).1 = b /\ rowOf i b = pack (rowOf i (rotateBoard b k)).
Proof.
  intros Hlen Hsame Hi.
  pose proof (rotateBoard_length b k Hlen) as Hrot.
  apply differs_false_eq in Hsame; [|by rewrite moveLeft_length].
  split; [done|].
  rewrite <- Hsame at 1. apply moveLeft_same_count; [done| |done].
  rewrite Hsame. symmetry. apply nonEmpty_perm. by apply rotateBoard_perm.
Qed.

Lemma rotateBoard_fixed (b : list value) (k : nat) :
  rotateBoard b 1 = b -> rotateBoard b k = b.
Proof.
  intros Hfix. induction k as [|k IH]; [done|].
  change (rotateBoard b (S k)) with (rotateOnce (rotateBoard b k)). by rewrite IH.
Qed.

(** The probe finds no move only on a board that is full, or empty, and that
    a quarter turn and [moveLeft] both leave as it is. *)
Lemma probe_stuck (b : list value) (s : Z) :
  length b = 16 -> availableMoves s b = false ->
  (null ∉ b \/ b = replicate 16 null)
  /\ rotateBoard b 1 = b /\ (moveLeft s b).1 = b.
Proof.
  intros Hlen Hav.
  pose proof (proj1 (availableMoves_false s b) Hav) as Hq.
  assert (Hl : "ArrowLeft" ∈ directions) by repeat constructor.
  assert (Hu : "ArrowUp" ∈ directions) by repeat constructor.
  assert (Hr : "ArrowRight" ∈ directions) by repeat constructor.
  pose proof (proj1 (probe_query b s 0 0 Hlen (Hq _ Hl) ltac:(lia))) as Hleft.
  change (rotateBoard b 0) with b in Hleft.
  assert (Hup : forall i, i < 4 -> rowOf i b = pack (colUp i b)).
  { intros i Hi. rewrite <- rowOf_rotate1 by done.
    by apply (probe_query b s 1 i Hlen (Hq _ Hu)). }
  assert (Hright : forall i, i < 4 -> rowOf i b = pack (reverse (rowOf (3 - i) b))).
  { intros i Hi. rewrite <- rowOf_rotate2 by done.
    by apply (probe_query b s 2 i Hlen (Hq _ Hr)). }
  split; [|split; [|done]]; clear Hleft Hq Hav Hl Hu Hr;
    apply length16_inv in Hlen;
    destruct Hlen as (x0 & x1 & x2 & x3 & x4 & x5 & x6 & x7 & x8 & x9 & x10
                      & x11 & x12 & x13 & x14 & x15 & ->);
    pose proof (Hup 0 ltac:(lia)) as U0; pose proof (Hup 1 ltac:(lia)) as U1;
    pose proof (Hup 2 ltac:(lia)) as U2; pose proof (Hup 3 ltac:(lia)) as U3;
    pose proof (Hright 0 ltac:(lia)) as R0; pose proof (Hright 1 ltac:(lia)) as R1;
    pose proof (Hright 2 ltac:(lia)) as R2; pose proof (Hright 3 ltac:(lia)) as R3;
    clear Hup Hright;
    change ([x0; x1; x2; x3] = pack [x12; x8; x4; x0]) in U0;
    change ([x4; x5; x6; x7] = pack [x13; x9; x5; x1]) in U1;
    change ([x8; x9; x10; x11] = pack [x14; x10; x6; x2]) in U2;
    change ([x12; x13; x14; x15] = pack [x15; x11; x7; x3]) in U3;
    change ([x0; x1; x2; x3] = pack [x15; x14; x13; x12]) in R0;
    change ([x4; x5; x6; x7] = pack [x11; x10; x9; x8]) in R1;
    change ([x8; x9; x10; x11] = pack [x7; x6; x5; x4]) in R2;
    change ([x12; x13; x14; x15] = pack [x3; x2; x1; x0]) in R3;
    pose proof (packed_cells _ _ _ _ _ U0) as PU0;
    pose proof (packed_cells _ _ _ _ _ U1) as PU1;
    pose proof (packed_cells _ _ _ _ _ U2) as PU2;
    pose proof (packed_cells _ _ _ _ _ U3) as PU3;
    pose proof (packed_cells _ _ _ _ _ R0) as PR0;
    pose proof (packed_cells _ _ _ _ _ R1) as PR1;
    pose proof (packed_cells _ _ _ _ _ R2) as PR2;
    pose proof (packed_cells _ _ _ _ _ R3) as PR3;
    rewrite !nonEmpty_cons in PU0, PU1, PU2, PU3, PR0, PR1, PR2, PR3;
    change (nonEmpty []) with 0 in *; unfold packedAt in *;
    pose proof (tile_le x0); pose proof (tile_le x1); pose proof (tile_le x2);
    pose proof (tile_le x3); pose proof (tile_le x4); pose proof (tile_le x5);
    pose proof (tile_le x6); pose proof (tile_le x7); pose proof (tile_le x8);
    pose proof (tile_le x9); pose proof (tile_le x10); pose proof (tile_le x11);
    pose proof (tile_le x12); pose proof (tile_le x13); pose proof (tile_le x14);
    pose proof (tile_le x15);
    (assert (Hall : (tile x0 = 1 /\ tile x1 = 1 /\ tile x2 = 1 /\ tile x3 = 1
                     /\ tile x4 = 1 /\ tile x5 = 1 /\ tile x6 = 1 /\ tile x7 = 1
                     /\ tile x8 = 1 /\ tile x9 = 1 /\ tile x10 = 1 /\ tile x11 = 1
                     /\ tile x12 = 1 /\ tile x13 = 1 /\ tile x14 = 1 /\ tile x15 = 1)
                    \/ (tile x0 = 0 /\ tile x1 = 0 /\ tile x2 = 0 /\ tile x3 = 0
                        /\ tile x4 = 0 /\ tile x5 = 0 /\ tile x6 = 0 /\ tile x7 = 0
                        /\ tile x8 = 0 /\ tile x9 = 0 /\ tile x10 = 0 /\ tile x11 = 0
                        /\ tile x12 = 0 /\ tile x13 = 0 /\ tile x14 = 0 /\ tile x15 = 0))
       by lia);
    clear PU0 PU1 PU2 PU3 PR0 PR1 PR2 PR3;
    destruct Hall as [Hfull|Hempty].
  - left. destruct_and!. rewrite !not_elem_of_cons.
    repeat (split; [by apply not_eq_sym, tile_1|]). apply not_elem_of_nil.
  - right. destruct_and!.
    repeat match goal with H : tile _ = 0 |- _ => apply tile_0 in H end.
    subst. reflexivity.
  - destruct_and!.
    rewrite pack_full in U0, U1, U2, U3
      by (try done; rewrite !not_elem_of_cons;
          repeat (split; [by apply not_eq_sym, tile_1|]); apply not_elem_of_nil).
    change (rotateBoard [x0; x1; x2; x3; x4; x5; x6; x7; x8; x9; x10; x11; x12; x13; x14; x15] 1)
      with ([x12; x8; x4; x0] ++ [x13; x9; x5; x1] ++ [x14; x10; x6; x2] ++ [x15; x11; x7; x3]).
    by rewrite <- U0, <- U1, <- U2, <- U3.
  - destruct_and!.
    repeat match goal with H : tile _ = 0 |- _ => apply tile_0 in H end.
    subst. reflexivity.
Qed.

(** A full row whose two middle tiles are equal is changed by [moveLeft]. *)
Lemma middle_pair_merges (a x d : value) :
  a <> null -> x <> null -> d <> null -> rowResult [a; x; x; d] <> [a; x; x; d].
Proof.
  intros Ha Hx Hd Hsame.
  pose proof (rowResult_le [a; x; x; d]) as Hle. rewrite Hsame in Hle.
  destruct (row_cells [a; x; x; d]) as (_ & _ & Hm).
  assert (Hnn : null ∉ [a; x; x; d]).
  { rewrite !not_elem_of_cons. repeat split; try congruence. apply not_elem_of_nil. }
  pose proof (filter_tiles [a; x; x; d] 0 Hnn) as Hkept.
  change ([a; x; x; d] ++ replicate 0 null) with [a; x; x; d] in Hkept.
  rewrite Hkept in Hm. clear Hkept.
  assert (Hpos : 1 <= rowMerges [a; x; x; d]).
  { rewrite Hm, mergeCells_pair. destruct (strictEq a x).
    - destruct (mergeCells [x; d]) as [[r e] m]. simpl. lia.
    - rewrite mergeCells_pair, strictEq_refl.
      destruct (mergeCells [d]) as [[r e] m]. simpl. lia. }
  lia.
Qed.

(** The probe finds no move on the empty board, and on no other board of
    sixteen cells. *)
Lemma probe_only_empty (b : list value) (s : Z) :
  length b = 16 -> availableMoves s b = false <-> b = replicate 16 null.
Proof.
  intros Hlen. split.
  - intros Hav. destruct (probe_stuck b s Hlen Hav) as ([Hfull|Hempty] & Hfix & Hml);
      [exfalso|done].
    pose proof (moveLeft_rowOf b s 1 Hlen ltac:(lia)) as Hrow. rewrite Hml in Hrow.
    apply (f_equal (fun l => Arr.get l 6)) in Hfix.
    apply length16_inv in Hlen.
    destruct Hlen as (x0 & x1 & x2 & x3 & x4 & x5 & x6 & x7 & x8 & x9 & x10
                      & x11 & x12 & x13 & x14 & x15 & ->).
    change (x5 = x6) in Hfix. subst x6.
    change ([x4; x5; x5; x7] = rowResult [x4; x5; x5; x7]) in Hrow.
    rewrite !not_elem_of_cons in Hfull. destruct_and!.
    by apply (middle_pair_merges x4 x5 x7).
  - intros ->. apply availableMoves_false. intros dir Hin.
    assert (Hrot : rotateBoard (replicate 16 null) (probeTimes dir) = replicate 16 null).
    { by apply rotateBoard_fixed. }
    rewrite Hrot, (moveLeft_board_score _ s 0%Z). reflexivity.
Qed.

(** A move never raises the flag on a board of sixteen cells: the board the
    probe looks at holds the tile just spawned, or is full. *)
Lemma move_gameOver (direction : string) (r : rand) (st : state) :
  length (board st) = 16 -> gameOver (move direction r st) = gameOver st.
Proof.
  intros Hlen. rewrite move_unfold. destruct (gameOver st) eqn:Hover; [done|].
  destruct (differs _ _); [|done]. simpl.
  assert (Hfin : length (finalBoardOf direction st) = 16).
  { unfold finalBoardOf. apply rotateOut_length; [|done].
    apply moveLeft_length. by apply rotateIn_length. }
  destruct (availableMoves _ _) eqn:Hav; [done|]. exfalso.
  apply probe_only_empty in Hav; [|by rewrite addRandomTile_length].
  pose proof (addRandomTile_nonEmpty r (finalBoardOf direction st)) as Hn.
  rewrite Hav, Hfin in Hn. change (nonEmpty (replicate 16 null)) with 0 in Hn.
  pose proof (nonEmpty_le (finalBoardOf direction st)) as Hle. rewrite Hfin in Hle.
  case_decide; lia.
Qed.

(** X24.  On a board of sixteen cells the game-over probe of [move] reports
    that no move is available on the empty board and on no other board. *)
Theorem X24_probe_stuck_only_when_empty (b : list value) (s : Z) :
  length b = 16 -> availableMoves s b = false <-> b = replicate 16 null.
Proof. apply probe_only_empty. Qed.

Lemma X24_probe_stuck_only_when_empty_witness :
  length checker = 16 /\ availableMoves 0%Z checker = true.
Proof.
  split; [reflexivity|].
  destruct (availableMoves 0%Z checker) eqn:Hav; [reflexivity|].
  apply (X24_probe_stuck_only_when_empty checker 0%Z eq_refl) in Hav.
  discriminate Hav.
Defined.

(** X25.  The game-over flag is never raised: a move leaves the flag of a
    state with a sixteen-cell board as it is, and in every reachable state
    the flag is false. *)
Theorem X25_gameOver_never_raised :
  (forall direction r st,
      length (board st) = 16 -> gameOver (move direction r st) = gameOver st)
  /\ (forall st, reachable st -> gameOver st = false).
Proof.
  split; [apply move_gameOver|].
  induction 1 as [| r1 r2 | direction r st Hst IH]; [done..|].
  rewrite move_gameOver; [done | by apply reachable_length].
Qed.

Lemma X25_gameOver_never_raised_witness :
  gameOver (move "ArrowLeft" sample0
              {| board := checkerBefore; score := 0%Z; gameOver := false |}) = false
  /\ gameOver (move "ArrowUp" sample0 (initializeGame sample0 sample0)) = false.
Proof.
  split.
  - apply (proj1 X25_gameOver_never_raised "ArrowLeft" sample0
             {| board := checkerBefore; score := 0%Z; gameOver := false |}).
    reflexivity.
  - apply (proj2 X25_gameOver_never_raised). apply reach_move. apply reach_init.
Defined.
